(** * Square-root Gaussian filtering kernels of probdiffeq / odefilter

    A shallow embedding of the isotropic state-space implementation
    ([odefilter/implementations/isotropic.py]) and of the Markov-sequence
    marginalisation ([odefilter/markov.py]), over MathComp matrices with
    entries in an arbitrary field (an ordered one where a norm has to vanish
    only with its vector).  The QR factorisation and the scalar square root
    are library routines; they stay parameters, and every statement names
    the arguments on which it needs them to be right.

    Arrays of shape [(n, d)] are matrices ['M_(n, d)]; one-dimensional arrays
    are row vectors ['rV_n]; [p[:, None] * x] is [diag_mx p *m x] and
    [x * p[None, :]] is [x *m diag_mx p]. *)

From HB Require Import structures.
From mathcomp Require Import boot order algebra.

Set Implicit Arguments.
Unset Strict Implicit.
Unset Printing Implicit Defensive.

Import GRing.Theory Num.Theory Order.POrderTheory.
Local Open Scope ring_scope.

(** ** Square-root matrix kernels ([odefilter.sqrtm], later
       [probdiffeq.util.cholesky_util]) *)

Module Sqrtm.
Section Kernels.

Variable F : fieldType.

(** The library routine [jnp.linalg.qr(M, mode="r")]: the triangular factor
    of a QR decomposition.  It is an external routine and stays a parameter;
    what it guarantees on a given argument is [r_factor_of] below. *)
Variable qr_r : forall m n : nat, 'M[F]_(m, n) -> 'M[F]_n.

(** [cov(x) = x.T @ x], the covariance carried by an upper factor. *)
Definition gram m n (R : 'M[F]_(m, n)) : 'M[F]_n := R^T *m R.

(** [L @ L.T], the covariance carried by a lower factor. *)
Definition cov m n (L : 'M[F]_(m, n)) : 'M[F]_m := L *m L^T.

Definition upper_triangular n (R : 'M[F]_n) : bool := is_trig_mx R^T.

(** [R] is a triangular QR factor of [M]: [M = Q R] with [Q] orthonormal,
    that is, [R] is upper triangular and has the Gram matrix of [M]. *)
Definition r_factor_of m n (M : 'M[F]_(m, n)) (R : 'M[F]_n) : bool :=
  (gram R == gram M) && upper_triangular R.

(** The QR routine answers correctly on [M]. *)
Definition qr_ok m n (M : 'M[F]_(m, n)) : bool := r_factor_of M (qr_r M).

(** Modelled from the spec: [sum_of_sqrtm_factors] is not among the sources.
    Section 4.1: the square-root factor of a sum of covariances, "computed via
    QR decomposition of the stacked [R1; R2]". *)
Definition sum_of_sqrtm_factors m1 m2 n
    (R1 : 'M[F]_(m1, n)) (R2 : 'M[F]_(m2, n)) : 'M[F]_n :=
  qr_r (col_mx R1 R2).

(** Modelled from the spec: [sqrtm_to_cholesky] is not among the sources.
    Section 4.2 names it the "square-root-to-Cholesky reduction": the
    transposed triangular QR factor of a matrix square root. *)
Definition sqrtm_to_cholesky m n (R : 'M[F]_(m, n)) : 'M[F]_n :=
  (qr_r R)^T.

(** [jax.scipy.linalg.solve_triangular(U, B, lower=False)]: back substitution
    divides by the diagonal of [U]; a singular [U] gives no finite result. *)
Definition solve_triangular n k (U : 'M[F]_n) (B : 'M[F]_(n, k))
    : option 'M[F]_(n, k) :=
  if U \in unitmx then Some (invmx U *m B) else None.

(** Modelled from the spec: [revert_conditional] (formerly
    [revert_gauss_markov_correlation]) is not among the sources.
    Section 4.1: from the joint square-root blocks it "returns the square root
    of the marginal covariance and the backward conditional's noise square
    root and linear gain, via a single joint QR factorization".  The joint
    matrix is [[R_YX, 0], [R_X_F, R_X]]; the gain solves the triangular system
    of the leading block against the off-diagonal block. *)
Definition revert_conditional k m dy dx
    (R_X_F : 'M[F]_(m, dy)) (R_X : 'M[F]_(m, dx)) (R_YX : 'M[F]_(k, dy))
    : option ('M[F]_dy * ('M[F]_dx * 'M[F]_(dx, dy))) :=
  let R := qr_r (block_mx R_YX 0 R_X_F R_X) in
  let R_ext := ulsubmx R in
  let R12 := ursubmx R in
  let R_cor := drsubmx R in
  if solve_triangular R_ext R12 is Some X
  then Some (R_ext, (R_cor, X^T)) else None.

(** The joint matrix that [revert_conditional] factorises. *)
Definition joint_blocks k m dy dx
    (R_X_F : 'M[F]_(m, dy)) (R_X : 'M[F]_(m, dx)) (R_YX : 'M[F]_(k, dy))
    : 'M[F]_(k + m, dy + dx) :=
  block_mx R_YX 0 R_X_F R_X.

End Kernels.
End Sqrtm.

(** ** Markov sequences ([odefilter/markov.py]) *)

Module Markov.
Section Marginalise.

Variable F : fieldType.
Variable qr_r : forall m n : nat, 'M[F]_(m, n) -> 'M[F]_n.

(** [rv.Normal]: mean and lower square-root factor of the covariance. *)
Record Normal (n : nat) := MkNormal {
  mean : 'cV[F]_n;
  cov_sqrtm_lower : 'M[F]_n
}.

(** [jax.lax.scan(f, init, xs)] over a stacked sequence. *)
Fixpoint scan (C X Y : Type) (f : C -> X -> C * Y) (init : C) (xs : seq X)
    : C * seq Y :=
  if xs is x :: xs' then
    let: (c, y) := f init x in
    let: (c', ys) := scan f c xs' in (c', y :: ys)
  else (init, [::]).

(** [jax.lax.scan(..., reverse=r)]: with [reverse] the sequence is consumed
    from its last entry and every output keeps the position of its input. *)
Definition scan_dir (C X Y : Type) (f : C -> X -> C * Y) (init : C)
    (xs : seq X) (reverse : bool) : C * seq Y :=
  if reverse then
    let: (c, ys) := scan f init (rev xs) in (c, rev ys)
  else scan f init xs.

(** [marginalise(init, operator, noise)] *)
Definition marginalise n m (init : Normal n) (operator : 'M[F]_(m, n))
    (noise : Normal m) : Normal m :=
  let mean_new := operator *m mean init + mean noise in
  let cov_sqrtm_lower_new :=
    (Sqrtm.sum_of_sqrtm_factors qr_r
       (operator *m cov_sqrtm_lower init)^T (cov_sqrtm_lower noise)^T)^T in
  MkNormal mean_new cov_sqrtm_lower_new.

(** [MarkovSequence] *)
Record MarkovSequence (n : nat) := MkMarkovSequence {
  transition_operators : seq 'M[F]_n;
  transition_noise_rvs : seq (Normal n);
  init : Normal n;
  reverse : bool
}.

Definition transitions n (s : MarkovSequence n) : seq ('M[F]_n * Normal n) :=
  zip (transition_operators s) (transition_noise_rvs s).

(** [marginalise_sequence(markov_sequence)] *)
Definition marginalise_sequence n (s : MarkovSequence n) : seq (Normal n) :=
  let body_fun carry (x : 'M[F]_n * Normal n) :=
    let: (op, noise) := x in
    let out := marginalise carry op noise in (out, out) in
  (scan_dir body_fun (init s) (transitions s) (reverse s)).2.

End Marginalise.
End Markov.

(** ** Isotropic state-space implementation
       ([odefilter/implementations/isotropic.py]) *)

Module Isotropic.
Section Implementation.

Variable F : fieldType.
Variable qr_r : forall m n : nat, 'M[F]_(m, n) -> 'M[F]_n.

(** [jnp.sqrt] on scalars, an external routine. *)
Variable sqrt : F -> F.

(** [n] is the number of derivatives plus one, [d] the ODE dimension. *)
Variables n d : nat.

(** [IsotropicNormal] *)
Record IsotropicNormal := MkNormal {
  mean : 'M[F]_(n, d);
  cov_sqrtm_lower : 'M[F]_n
}.

(** [IsotropicImplementation] *)
Record IsotropicImplementation := MkImplementation {
  a : 'M[F]_n;
  q_sqrtm_lower : 'M[F]_n
}.

(** A backward model as the methods read it: [x.transition], [x.noise]. *)
Record BackwardModel := MkBackwardModel {
  transition : 'M[F]_n;
  noise : IsotropicNormal
}.

(** Array division by a scalar.  Dividing by zero leaves no finite value;
    the embedding returns [None] there. *)
Definition divide_by r c (x : 'M[F]_(r, c)) (s : F) : option 'M[F]_(r, c) :=
  if s == 0 then None else Some (s^-1 *: x).

Definition num_derivatives (self : IsotropicImplementation) : nat := n.-1.

Definition init_corrected (taylor_coefficients : 'M[F]_(n, d))
    : IsotropicNormal :=
  MkNormal taylor_coefficients 0.

Definition init_backward_transition : 'M[F]_n := 1%:M.

Definition init_backward_noise : IsotropicNormal := MkNormal 0 0.

Definition extrapolate_mean (self : IsotropicImplementation)
    (m0 : 'M[F]_(n, d)) (p p_inv : 'rV[F]_n)
    : 'M[F]_(n, d) * 'M[F]_(n, d) * 'M[F]_(n, d) :=
  let m0_p := diag_mx p_inv *m m0 in
  let m_ext_p := a self *m m0_p in
  let m_ext := diag_mx p *m m_ext_p in
  (m_ext, m_ext_p, m0_p).

Definition estimate_error (self : IsotropicImplementation)
    (linear_fn : 'M[F]_n -> 'rV[F]_n) (m_obs : 'rV[F]_d) (p : 'rV[F]_n)
    : option (F * F) :=
  let l_obs_raw := linear_fn (diag_mx p *m q_sqrtm_lower self) in
  let l_obs := Sqrtm.sqrtm_to_cholesky qr_r l_obs_raw^T 0 0 in
  if divide_by m_obs l_obs is Some res_scaled then
    if divide_by res_scaled (sqrt d%:R) is Some res_white then
      let diffusion_sqrtm := Sqrtm.sqrtm_to_cholesky qr_r res_white^T 0 0 in
      let error_estimate := diffusion_sqrtm * l_obs in
      Some (diffusion_sqrtm, error_estimate)
    else None
  else None.

Definition complete_extrapolation (self : IsotropicImplementation)
    (m_ext : 'M[F]_(n, d)) (l0 : 'M[F]_n) (p_inv p : 'rV[F]_n)
    (diffusion_sqrtm : F) : IsotropicNormal :=
  let l0_p := diag_mx p_inv *m l0 in
  let l_ext_p :=
    (Sqrtm.sum_of_sqrtm_factors qr_r
       (a self *m l0_p)^T (diffusion_sqrtm *: q_sqrtm_lower self)^T)^T in
  let l_ext := diag_mx p *m l_ext_p in
  MkNormal m_ext l_ext.

Definition revert_markov_kernel (self : IsotropicImplementation)
    (m_ext : 'M[F]_(n, d)) (l0 : 'M[F]_n) (p p_inv : 'rV[F]_n)
    (diffusion_sqrtm : F) (m0_p m_ext_p : 'M[F]_(n, d))
    : option (IsotropicNormal * (IsotropicNormal * 'M[F]_n)) :=
  let l0_p := diag_mx p_inv *m l0 in
  if Sqrtm.revert_conditional qr_r
       (a self *m l0_p)^T l0_p^T (diffusion_sqrtm *: q_sqrtm_lower self)^T
  is Some (r_ext_p, (r_bw_p, g_bw_p)) then
    let l_ext_p := r_ext_p^T in
    let l_bw_p := r_bw_p^T in
    let m_bw_p := m0_p - g_bw_p *m m_ext_p in
    let l_ext := diag_mx p *m l_ext_p in
    let m_bw := diag_mx p *m m_bw_p in
    let l_bw := diag_mx p *m l_bw_p in
    let g_bw := diag_mx p *m g_bw_p *m diag_mx p_inv in
    let backward_op := g_bw in
    let backward_noise := MkNormal m_bw l_bw in
    let extrapolated := MkNormal m_ext l_ext in
    Some (extrapolated, (backward_noise, backward_op))
  else None.

Definition final_correction (extrapolated : IsotropicNormal)
    (linear_fn : 'M[F]_n -> 'rV[F]_n) (m_obs : 'rV[F]_d)
    : option IsotropicNormal :=
  let m_ext := mean extrapolated in
  let l_ext := cov_sqrtm_lower extrapolated in
  let l_obs := linear_fn l_ext in
  let c_obs := (l_obs *m l_obs^T) 0 0 in
  if divide_by (l_ext *m l_obs^T) c_obs is Some g then
    let m_cor := m_ext - g *m m_obs in
    let l_cor := l_ext - g *m l_obs in
    Some (MkNormal m_cor l_cor)
  else None.

Definition condense_backward_models (bw_init bw_state : BackwardModel)
    : IsotropicNormal * 'M[F]_n :=
  let A := transition bw_init in
  let b := mean (noise bw_init) in
  let B_sqrtm := cov_sqrtm_lower (noise bw_init) in
  let C := transition bw_state in
  let d' := mean (noise bw_state) in
  let D_sqrtm := cov_sqrtm_lower (noise bw_state) in
  let g := A *m C in
  let xi := A *m d' + b in
  let Xi := (Sqrtm.sum_of_sqrtm_factors qr_r (A *m D_sqrtm)^T B_sqrtm^T)^T in
  (MkNormal xi Xi, g).

Definition marginalise_model_isotropic (init : IsotropicNormal)
    (linop : 'M[F]_n) (noise' : IsotropicNormal) : IsotropicNormal :=
  let m0_p := mean init in
  let l0_p := cov_sqrtm_lower init in
  let m_new_p := linop *m m0_p + mean noise' in
  let l_new_p :=
    (Sqrtm.sum_of_sqrtm_factors qr_r
       (linop *m l0_p)^T (cov_sqrtm_lower noise')^T)^T in
  MkNormal m_new_p l_new_p.

(** Modelled from the spec: [_control_flow.scan_with_init] is not among the
    sources.  Section 4.8: the scan produces "the marginal Gaussian at every
    stored node", so the start value joins the outputs, at the end the scan
    starts from. *)
Definition scan_with_init (C X : Type) (f : C -> X -> C * C) (init : C)
    (xs : seq X) (reverse : bool) : C * seq C :=
  let: (carry, ys) := Markov.scan_dir f init xs reverse in
  (carry, if reverse then rcons ys init else init :: ys).

Definition marginalise_backwards (init : IsotropicNormal)
    (backward_model : seq BackwardModel) : seq IsotropicNormal :=
  let body_fun carry x :=
    let out :=
      marginalise_model_isotropic carry (transition x) (noise x) in
    (out, out) in
  let bw_models := behead backward_model in
  (scan_with_init body_fun init bw_models true).2.

(** The strategies wrap the pair that [condense_backward_models] returns:
    [BackwardModel(transition=gain, noise=noise)]. *)
Definition as_backward_model (x : IsotropicNormal * 'M[F]_n) : BackwardModel :=
  MkBackwardModel x.2 x.1.

(** The stack that [condense_backward_models] hands to
    [sum_of_sqrtm_factors]. *)
Definition condense_stack (bw_init bw_state : BackwardModel)
    : 'M[F]_(n + n, n) :=
  col_mx (transition bw_init *m cov_sqrtm_lower (noise bw_state))^T
         (cov_sqrtm_lower (noise bw_init))^T.

(** The stack that [complete_extrapolation] hands to
    [sum_of_sqrtm_factors]. *)
Definition extrapolation_stack (self : IsotropicImplementation)
    (l0 : 'M[F]_n) (p_inv : 'rV[F]_n) (diffusion_sqrtm : F)
    : 'M[F]_(n + n, n) :=
  col_mx (a self *m (diag_mx p_inv *m l0))^T
         (diffusion_sqrtm *: q_sqrtm_lower self)^T.

(** The joint matrix that [revert_markov_kernel] hands to
    [revert_conditional]. *)
Definition extrapolation_joint (self : IsotropicImplementation)
    (l0 : 'M[F]_n) (p_inv : 'rV[F]_n) (diffusion_sqrtm : F)
    : 'M[F]_(n + n, n + n) :=
  Sqrtm.joint_blocks (a self *m (diag_mx p_inv *m l0))^T
    (diag_mx p_inv *m l0)^T (diffusion_sqrtm *: q_sqrtm_lower self)^T.

(** The prior in physical units: transition [p * a * p_inv] and noise factor
    [p * q_sqrtm_lower]. *)
Definition physical_transition (self : IsotropicImplementation)
    (p p_inv : 'rV[F]_n) : 'M[F]_n :=
  diag_mx p *m a self *m diag_mx p_inv.

Definition physical_noise_sqrtm (self : IsotropicImplementation)
    (p : 'rV[F]_n) : 'M[F]_n :=
  diag_mx p *m q_sqrtm_lower self.

(** The covariance of the extrapolated state in physical units. *)
Definition physical_marginal_cov (self : IsotropicImplementation)
    (l0 : 'M[F]_n) (p p_inv : 'rV[F]_n) (diffusion_sqrtm : F) : 'M[F]_n :=
  physical_transition self p p_inv *m Sqrtm.cov l0
    *m (physical_transition self p p_inv)^T
  + (diffusion_sqrtm * diffusion_sqrtm)
      *: Sqrtm.cov (physical_noise_sqrtm self p).

End Implementation.
End Isotropic.

(** ** Concrete data over the rationals *)

Module Examples.

(** Entries of the triangular factors of the stacks [[3], [4]] and
    [[3, 0], [4, 1]]. *)
Definition r345 (i j : nat) : rat :=
  match i, j with
  | O, O => 5
  | O, S O => 4 / 5
  | S O, S O => 3 / 5
  | _, _ => 0
  end.

(** A QR routine that is right on zero matrices, on columns of norm [5] and
    on the joint matrix [[3, 0], [4, 1]]. *)
Definition qr345 m n (M : 'M[rat]_(m, n)) : 'M[rat]_n :=
  if M == 0 then 0 else \matrix_(i, j) r345 i j.

(** [jnp.sqrt] at its fixed points [0] and [1]. *)
Definition sqrt01 (x : rat) : rat := x.

(** [linear_fn = lambda x: x[0, ...]] *)
Definition first_row (x : 'M[rat]_1) : 'rV[rat]_1 := row 0 x.

(** A prior with transition [4] and noise factor [1], and the preconditioner
    [(2, 1/2)]. *)
Definition impl : Isotropic.IsotropicImplementation rat 1 :=
  Isotropic.MkImplementation 4%:M 1%:M.

Definition precon : 'rV[rat]_1 := 2%:M.

Definition precon_inv : 'rV[rat]_1 := (1 / 2)%:M.

(** A prior without process noise, and one with noise factor [5]. *)
Definition impl_noise_free : Isotropic.IsotropicImplementation rat 1 :=
  Isotropic.MkImplementation 1%:M 0.

Definition impl_noise5 : Isotropic.IsotropicImplementation rat 1 :=
  Isotropic.MkImplementation 1%:M 5%:M.

Definition unit_scaling : 'rV[rat]_1 := 1%:M.

(** Three backward models. *)
Definition bw_x : Isotropic.BackwardModel rat 1 1 :=
  Isotropic.MkBackwardModel (3 / 5)%:M (Isotropic.MkNormal 1%:M 4%:M).

Definition bw_y : Isotropic.BackwardModel rat 1 1 :=
  Isotropic.MkBackwardModel 2%:M (Isotropic.MkNormal 2%:M 5%:M).

Definition bw_z : Isotropic.BackwardModel rat 1 1 :=
  Isotropic.MkBackwardModel 7%:M (Isotropic.MkNormal 3%:M 0).

End Examples.

(** ** The solution read off a state ([extract_sol] of
       [odefilter/implementations/isotropic.py]) *)

Module IsotropicSolution.
Section ExtractSol.

Variable F : fieldType.
Variable qr_r : forall m n : nat, 'M[F]_(m, n) -> 'M[F]_n.

(** The state has at least the zeroth derivative: [n.+1] rows. *)
Variables n d : nat.

(** [IsotropicNormal(m, l_square)]: the class again, now with a vector mean
    and a scalar factor. *)
Record IsotropicNormal := MkNormal {
  mean : 'rV[F]_d;
  cov_sqrtm_lower : F
}.

(** [extract_sol(rv)], non-batch setting.  [l_nonsquare[:, None].T] is the
    first row of the factor as a matrix with one row, and it is this wide
    matrix that goes through [sqrtm_to_cholesky]; the QR routine returns its
    triangular factor with the rows below the first filled with zeros. *)
Definition extract_sol (rv : Isotropic.IsotropicNormal F n.+1 d)
    : IsotropicNormal :=
  let m := row 0 (Isotropic.mean rv) in
  let l_nonsquare := row 0 (Isotropic.cov_sqrtm_lower rv) in
  let l_square := Sqrtm.sqrtm_to_cholesky qr_r l_nonsquare 0 0 in
  MkNormal m l_square.

(** [extract_sol(rv)], batch setting: the same, mapped over the leading
    axis. *)
Definition extract_sol_batch (rvs : seq (Isotropic.IsotropicNormal F n.+1 d))
    : seq IsotropicNormal :=
  [seq extract_sol rv | rv <- rvs].

End ExtractSol.
End IsotropicSolution.

(** ** More concrete data over the rationals *)

Module MoreExamples.

(** A QR routine that is right on zero matrices, on the column [[5]] and on
    the joint matrix [[5, 0], [0, 0]]. *)
Definition qr500 m n (M : 'M[rat]_(m, n)) : 'M[rat]_n :=
  if M == 0 then 0
  else \matrix_(i, j) (if (i == 0 :> nat) && (j == 0 :> nat) then 5 else 0).

(** A prior with transition [4] and noise factor [1], as [Examples.impl], and
    the preconditioner [(5, 1/5)]. *)
Definition precon5 : 'rV[rat]_1 := 5%:M.

Definition precon5_inv : 'rV[rat]_1 := (1 / 5)%:M.

(** Two Markov sequences with the same operators and means and different
    covariance factors. *)
Definition seq_a : Markov.MarkovSequence rat 1 :=
  Markov.MkMarkovSequence [:: 2%:M; 3%:M]
    [:: Markov.MkNormal 1%:M 3%:M; Markov.MkNormal 2%:M 4%:M]
    (Markov.MkNormal 1%:M 4%:M) true.

Definition seq_b : Markov.MarkovSequence rat 1 :=
  Markov.MkMarkovSequence [:: 2%:M; 3%:M]
    [:: Markov.MkNormal 1%:M 0; Markov.MkNormal 2%:M 1%:M]
    (Markov.MkNormal 1%:M 0) true.

(** States with mean [1] and factors [0], [2], [3], [5]. *)
Definition rv0 : Isotropic.IsotropicNormal rat 1 1 :=
  Isotropic.MkNormal 1%:M 0.

Definition rv2 : Isotropic.IsotropicNormal rat 1 1 :=
  Isotropic.MkNormal 1%:M 2%:M.

Definition rv3 : Isotropic.IsotropicNormal rat 1 1 :=
  Isotropic.MkNormal 1%:M 3%:M.

Definition rv5 : Isotropic.IsotropicNormal rat 1 1 :=
  Isotropic.MkNormal 1%:M 5%:M.

(** A noise with mean [2] and factor [4]. *)
Definition noise4 : Isotropic.IsotropicNormal rat 1 1 :=
  Isotropic.MkNormal 2%:M 4%:M.

(** The backward model of the first node. *)
Definition bw_trivial : Isotropic.BackwardModel rat 1 1 :=
  Isotropic.MkBackwardModel (Isotropic.init_backward_transition rat 1)
    (Isotropic.init_backward_noise rat 1 1).

End MoreExamples.

(** * Properties *)

(** ** Gram products of stacked and factorised matrices *)

Section KernelFacts.

Variable F : fieldType.
Variable qr_r : forall m n : nat, 'M[F]_(m, n) -> 'M[F]_n.

Local Notation gram := (@Sqrtm.gram F _ _).
Local Notation cov := (@Sqrtm.cov F _ _).
Local Notation qr_ok := (@Sqrtm.qr_ok F qr_r _ _).
Local Notation sum_of_sqrtm_factors := (@Sqrtm.sum_of_sqrtm_factors F qr_r _ _ _).

Lemma gram_tr m n (L : 'M[F]_(m, n)) : gram L^T = cov L.
Proof. by rewrite /Sqrtm.gram /Sqrtm.cov trmxK. Qed.

Lemma cov_tr m n (R : 'M[F]_(m, n)) : cov R^T = gram R.
Proof. by rewrite /Sqrtm.gram /Sqrtm.cov trmxK. Qed.

Lemma gram_col_mx m1 m2 n (R1 : 'M[F]_(m1, n)) (R2 : 'M[F]_(m2, n)) :
  gram (col_mx R1 R2) = gram R1 + gram R2.
Proof. by rewrite /Sqrtm.gram tr_col_mx mul_row_col. Qed.

Lemma cov_mul m n k (A : 'M[F]_(m, n)) (L : 'M[F]_(n, k)) :
  cov (A *m L) = A *m cov L *m A^T.
Proof. by rewrite /Sqrtm.cov trmx_mul !mulmxA. Qed.

Lemma cov_scale m n (c : F) (L : 'M[F]_(m, n)) :
  cov (c *: L) = (c * c) *: cov L.
Proof. by rewrite /Sqrtm.cov linearZ /= -scalemxAl -scalemxAr scalerA. Qed.

Lemma qr_ok_gram m n (M : 'M[F]_(m, n)) :
  qr_ok M -> gram (qr_r M) = gram M.
Proof. by case/andP => /eqP. Qed.

Lemma qr_ok_upper m n (M : 'M[F]_(m, n)) :
  qr_ok M -> Sqrtm.upper_triangular (qr_r M).
Proof. by case/andP. Qed.

Lemma sum_of_sqrtm_factors_gram m1 m2 n
    (R1 : 'M[F]_(m1, n)) (R2 : 'M[F]_(m2, n)) :
  qr_ok (col_mx R1 R2) ->
  gram (sum_of_sqrtm_factors R1 R2) = gram R1 + gram R2.
Proof. by move/qr_ok_gram; rewrite gram_col_mx. Qed.

(** The lower factors the callers build: both arguments and the result are
    transposed. *)
Lemma sum_of_sqrtm_factors_cov n k1 k2
    (L1 : 'M[F]_(n, k1)) (L2 : 'M[F]_(n, k2)) :
  qr_ok (col_mx L1^T L2^T) ->
  cov (sum_of_sqrtm_factors L1^T L2^T)^T = cov L1 + cov L2.
Proof. by move/sum_of_sqrtm_factors_gram; rewrite cov_tr !gram_tr. Qed.

End KernelFacts.

(** ** The joint factorisation behind [revert_conditional] *)

Section RevertFacts.
Variable F : fieldType.
Variable qr_r : forall m n : nat, 'M[F]_(m, n) -> 'M[F]_n.
Variables k m dy dx : nat.
Variables (R_X_F : 'M[F]_(m, dy)) (R_X : 'M[F]_(m, dx)) (R_YX : 'M[F]_(k, dy)).

Local Notation J := (Sqrtm.joint_blocks R_X_F R_X R_YX).
Local Notation R := (qr_r J).

Lemma upper_triangular_dlsubmx (U : 'M[F]_(dy + dx)) :
  Sqrtm.upper_triangular U -> dlsubmx U = 0.
Proof.
rewrite /Sqrtm.upper_triangular -{1}(submxK U) tr_block_mx is_trig_block_mx //.
by case/and3P => /eqP/(congr1 trmx); rewrite trmxK trmx0.
Qed.

Lemma gram_joint_blocks :
  Sqrtm.gram J =
  block_mx (Sqrtm.gram R_YX + Sqrtm.gram R_X_F) (R_X_F^T *m R_X)
           (R_X^T *m R_X_F) (Sqrtm.gram R_X).
Proof.
rewrite /Sqrtm.gram /Sqrtm.joint_blocks tr_block_mx mulmx_block.
by rewrite trmx0 !mulmx0 !mul0mx !add0r.
Qed.

Lemma gram_upper_blocks (U : 'M[F]_(dy + dx)) :
  Sqrtm.upper_triangular U ->
  Sqrtm.gram U =
  block_mx (Sqrtm.gram (ulsubmx U)) ((ulsubmx U)^T *m ursubmx U)
           ((ursubmx U)^T *m ulsubmx U)
           (Sqrtm.gram (ursubmx U) + Sqrtm.gram (drsubmx U)).
Proof.
move/upper_triangular_dlsubmx => U21.
rewrite /Sqrtm.gram -{1 2}(submxK U) U21 tr_block_mx mulmx_block.
by rewrite trmx0 !mulmx0 !mul0mx !addr0.
Qed.


Lemma revert_conditional_correct :
  Sqrtm.qr_ok qr_r J ->
  Sqrtm.gram R_YX + Sqrtm.gram R_X_F \in unitmx ->
  let S := Sqrtm.gram R_YX + Sqrtm.gram R_X_F in
  let K := R_X^T *m R_X_F *m invmx S in
  exists R_ext R_cor,
    [/\ Sqrtm.revert_conditional qr_r R_X_F R_X R_YX = Some (R_ext, (R_cor, K)),
        Sqrtm.gram R_ext = S
      & Sqrtm.gram R_cor = Sqrtm.gram R_X - K *m S *m K^T].
Proof.
move=> okJ Sunit S K.
have upR := qr_ok_upper okJ.
have := qr_ok_gram okJ.
rewrite gram_joint_blocks (gram_upper_blocks upR).
case/eq_block_mx => e11 e12 e21 e22.
set R11 := ulsubmx R in e11 e12 e21 e22.
set R12 := ursubmx R in e12 e21 e22.
set R22 := drsubmx R in e22.
have R11unit : R11 \in unitmx.
  by move: Sunit; rewrite -e11 /Sqrtm.gram unitmx_mul unitmx_tr andbb.
have GS : (invmx R11 *m R12)^T *m S = R_X^T *m R_X_F.
  rewrite -e21 /S -e11 /Sqrtm.gram trmx_mul trmx_inv -!mulmxA.
  by rewrite [invmx R11^T *m _]mulmxA mulVmx ?unitmx_tr // mul1mx.
have KE : K = (invmx R11 *m R12)^T by rewrite /K -GS mulmxK.
exists R11, R22; split.
- by rewrite /Sqrtm.revert_conditional /Sqrtm.solve_triangular R11unit KE.
- exact: e11.
- rewrite {1}KE GS -e21 KE trmxK -mulmxA [R11 *m _]mulmxA mulmxV // mul1mx.
  by rewrite -e22 addrC addKr.
Qed.

End RevertFacts.

(** ** Division, rank-one updates and condensed covariances *)

Section IsotropicFacts.

Variable F : fieldType.
Variable qr_r : forall m n : nat, 'M[F]_(m, n) -> 'M[F]_n.
Variables n d : nat.

Local Notation IsotropicNormal := (Isotropic.IsotropicNormal F n d).
Local Notation BackwardModel := (Isotropic.BackwardModel F n d).
Local Notation cov := (@Sqrtm.cov F _ _).

Lemma divide_by_some r c (x : 'M[F]_(r, c)) (s : F) :
  s != 0 -> Isotropic.divide_by x s = Some (s^-1 *: x).
Proof. by rewrite /Isotropic.divide_by => /negPf->. Qed.

Lemma divide_by_none r c (x : 'M[F]_(r, c)) :
  Isotropic.divide_by x 0 = None.
Proof. by rewrite /Isotropic.divide_by eqxx. Qed.

(** The posterior covariance of a rank-one update [L - g h] when [g] is the
    gain of the observed row [h]. *)
Lemma cov_rank_one_update (L : 'M[F]_n) (h : 'rV[F]_n) (g : 'cV[F]_n) (c : F) :
  h *m h^T = c%:M -> L *m h^T = c *: g ->
  cov (L - g *m h) = cov L - c *: (g *m g^T).
Proof.
move=> hh Lh; rewrite /Sqrtm.cov linearB /= trmx_mul.
rewrite mulmxBl !mulmxBr opprB addrA.
rewrite !mulmxA Lh -[g *m h *m L^T]mulmxA.
have -> : h *m L^T = c *: g^T.
  by rewrite -[h]trmxK -trmx_mul Lh linearZ.
rewrite -[g *m h *m h^T]mulmxA hh mul_mx_scalar.
rewrite -!scalemxAl -!scalemxAr.
by rewrite addrNK.
Qed.

Lemma condense_backward_models_cov (bw_init bw_state : BackwardModel) :
  Sqrtm.qr_ok qr_r (Isotropic.condense_stack bw_init bw_state) ->
  cov (Isotropic.cov_sqrtm_lower (Isotropic.condense_backward_models qr_r bw_init bw_state).1)
  = Isotropic.transition bw_init
      *m cov (Isotropic.cov_sqrtm_lower (Isotropic.noise bw_state))
      *m (Isotropic.transition bw_init)^T
    + cov (Isotropic.cov_sqrtm_lower (Isotropic.noise bw_init)).
Proof. by move/sum_of_sqrtm_factors_cov; rewrite cov_mul. Qed.

End IsotropicFacts.

(** ** The diagonal preconditioner and its inverse *)

Section PreconditionerFacts.

Variable F : fieldType.
Variable n : nat.
Variables p p_inv : 'rV[F]_n.
Hypothesis p_inverse : forall i, p 0 i * p_inv 0 i = 1.

Local Notation P := (diag_mx p).
Local Notation Pi := (diag_mx p_inv).
Local Notation cov := (@Sqrtm.cov F _ _).

Lemma precondition_unapply : P *m Pi = 1%:M.
Proof.
rewrite mulmx_diag -diag_const_mx; congr diag_mx.
by apply/rowP => i; rewrite !mxE p_inverse.
Qed.

Lemma unapply_precondition : Pi *m P = 1%:M.
Proof.
rewrite mulmx_diag -diag_const_mx; congr diag_mx.
by apply/rowP => i; rewrite !mxE mulrC p_inverse.
Qed.

Lemma preconditioner_unit : P \in unitmx.
Proof. by case: (mulmx1_unit precondition_unapply). Qed.

Lemma unapplyK k (X : 'M[F]_(n, k)) : P *m (Pi *m X) = X.
Proof. by rewrite mulmxA precondition_unapply mul1mx. Qed.

Lemma applyK k (X : 'M[F]_(n, k)) : Pi *m (P *m X) = X.
Proof. by rewrite mulmxA unapply_precondition mul1mx. Qed.

Lemma unapplyKr k (X : 'M[F]_(k, n)) : X *m Pi *m P = X.
Proof. by rewrite -mulmxA unapply_precondition mulmx1. Qed.

Lemma applyKr k (X : 'M[F]_(k, n)) : X *m P *m Pi = X.
Proof. by rewrite -mulmxA precondition_unapply mulmx1. Qed.

(** Covariance of a factor scaled by the preconditioner. *)
Lemma cov_unapply k (L : 'M[F]_(n, k)) : cov (P *m L) = P *m cov L *m P.
Proof. by rewrite cov_mul tr_diag_mx. Qed.

Lemma cov_apply k (L : 'M[F]_(n, k)) : cov (Pi *m L) = Pi *m cov L *m Pi.
Proof. by rewrite cov_mul tr_diag_mx. Qed.

End PreconditionerFacts.

(** ** Extrapolation in physical units *)

Section PhysicalUnits.

Variable F : fieldType.
Variable qr_r : forall m n : nat, 'M[F]_(m, n) -> 'M[F]_n.
Variables n d : nat.
Variable self : Isotropic.IsotropicImplementation F n.
Variables (m0 : 'M[F]_(n, d)) (l0 : 'M[F]_n).
Variables p p_inv : 'rV[F]_n.
Variable diffusion_sqrtm : F.
Hypothesis p_inverse : forall i, p 0 i * p_inv 0 i = 1.

Local Notation P := (diag_mx p).
Local Notation Pi := (diag_mx p_inv).
Local Notation cov := (@Sqrtm.cov F _ _).
Local Notation A := (Isotropic.a self).
Local Notation Q := (Isotropic.q_sqrtm_lower self).
Local Notation a_ph := (Isotropic.physical_transition self p p_inv).
Local Notation S := (Isotropic.physical_marginal_cov self l0 p p_inv diffusion_sqrtm).
Local Notation l0_p := (Pi *m l0).
Local Notation S_p :=
  (Sqrtm.gram (diffusion_sqrtm *: Q)^T + Sqrtm.gram (A *m l0_p)^T).
Local Notation K_p := (l0_p^T^T *m (A *m l0_p)^T *m invmx S_p).

Lemma marginal_cov_unapply : S = P *m S_p *m P.
Proof.
rewrite /Isotropic.physical_marginal_cov /Isotropic.physical_transition /Isotropic.physical_noise_sqrtm.
rewrite !gram_tr cov_scale.
rewrite !cov_mul !trmx_mul !tr_diag_mx mulmxDr mulmxDl addrC.
by rewrite -!scalemxAr -!scalemxAl !mulmxA.
Qed.

Lemma marginal_cov_unit : S \in unitmx -> S_p \in unitmx.
Proof. by rewrite marginal_cov_unapply !unitmx_mul => /andP[/andP[]]. Qed.

Lemma complete_extrapolation_cov (m_ext : 'M[F]_(n, d)) :
  Sqrtm.qr_ok qr_r (Isotropic.extrapolation_stack self l0 p_inv diffusion_sqrtm) ->
  cov (Isotropic.cov_sqrtm_lower
         (Isotropic.complete_extrapolation qr_r self m_ext l0 p_inv p
            diffusion_sqrtm)) = S.
Proof.
move/sum_of_sqrtm_factors_cov => covE.
rewrite /Isotropic.complete_extrapolation /= cov_unapply covE.
by rewrite marginal_cov_unapply !gram_tr addrC.
Qed.

(** The gain in physical units is the analytic gain of the physical model. *)
Lemma gain_unapply :
  S \in unitmx ->
  P *m K_p *m Pi = cov l0 *m a_ph^T *m invmx S.
Proof.
move=> Sunit; have Spunit := marginal_cov_unit Sunit.
rewrite -[LHS](mulmxK Sunit); congr (_ *m _).
rewrite marginal_cov_unapply; set Sp := S_p in Spunit *.
rewrite !mulmxA (unapplyKr p_inverse).
rewrite -[_ *m invmx Sp *m Sp]mulmxA mulVmx // mulmx1.
rewrite trmxK /Isotropic.physical_transition !trmx_mul !tr_diag_mx.
by rewrite /Sqrtm.cov !mulmxA (precondition_unapply p_inverse) mul1mx.
Qed.


End PhysicalUnits.

(** ** The magnitude read off a one-column factorisation *)

Section ErrorEstimate.

Variable F : realFieldType.
Variable qr_r : forall m n : nat, 'M[F]_(m, n) -> 'M[F]_n.
Variable sqrt : F -> F.

(** The scalar that [sqrtm_to_cholesky(R=v[:, None])[0, 0]] reads squares to
    the squared norm of [v]. *)
Lemma sqrtm_to_cholesky_col_sq k (v : 'rV[F]_k) :
  Sqrtm.qr_ok qr_r v^T ->
  Sqrtm.sqrtm_to_cholesky qr_r v^T 0 0 ^+ 2 = (v *m v^T) 0 0.
Proof.
move/qr_ok_gram/matrixP/(_ 0 0); rewrite gram_tr /Sqrtm.cov => <-.
by rewrite /Sqrtm.gram /Sqrtm.sqrtm_to_cholesky !mxE big_ord1 !mxE expr2.
Qed.

Lemma norm_sq_eq0 k (v : 'rV[F]_k) : ((v *m v^T) 0 0 == 0) = (v == 0).
Proof.
rewrite mxE psumr_eq0 => [i _|]; first by rewrite mxE -expr2 sqr_ge0.
apply/idP/eqP => [/allP v0 | ->]; last first.
  by apply/allP => i _; rewrite !mxE mul0r eqxx.
apply/rowP => i; rewrite [RHS]mxE; apply/eqP.
by have := v0 i; rewrite mem_index_enum mxE -expr2 sqrf_eq0 => /(_ isT).
Qed.

Lemma sqrtm_to_cholesky_col_eq0 k (v : 'rV[F]_k) :
  Sqrtm.qr_ok qr_r v^T ->
  (Sqrtm.sqrtm_to_cholesky qr_r v^T 0 0 == 0) = (v == 0).
Proof. by move/sqrtm_to_cholesky_col_sq=> sq; rewrite -norm_sq_eq0 -sq sqrf_eq0. Qed.

End ErrorEstimate.

(** ** One-by-one matrices and the example QR table *)

Section ScalarMatrices.

Variable F : fieldType.

Lemma scalar_mx_unit n (c : F) : c != 0 -> (c%:M : 'M[F]_n) \in unitmx.
Proof. by move=> c0; rewrite unitmxE det_scalar unitfE expf_neq0. Qed.

Lemma scalar_mx1_neq0 (c : F) : c != 0 -> (c%:M : 'M[F]_1) != 0.
Proof.
move=> c0; apply: contraNneq c0 => /matrixP/(_ 0 0).
by rewrite !mxE eqxx mulr1n => ->.
Qed.

Lemma diag_mx_scalar1 (c : F) : diag_mx (c%:M : 'rV[F]_1) = c%:M.
Proof. by apply/matrixP => i j; rewrite !mxE !ord1. Qed.

Lemma row_scalar1 (c : F) : row 0 (c%:M : 'M[F]_1) = c%:M.
Proof. by apply/matrixP => i j; rewrite !mxE !ord1. Qed.

Lemma gram_scalar1 (c : F) : Sqrtm.gram (c%:M : 'M[F]_1) = (c * c)%:M.
Proof. by rewrite /Sqrtm.gram tr_scalar_mx -scalar_mxM. Qed.

Lemma gram0 m n : Sqrtm.gram (0 : 'M[F]_(m, n)) = 0.
Proof. by rewrite /Sqrtm.gram mulmx0. Qed.

End ScalarMatrices.

(** Rewriting a one-by-one expression into a single scalar matrix. *)
Ltac scalar1 :=
  rewrite /=;
  repeat progress
    rewrite ?(trmxK, tr_scalar_mx, scale_scalar_mx, diag_mx_scalar1,
              row_scalar1, trmx0, mulmx0, mul0mx)
            -?scalar_mxM.

Section ExampleFacts.
Import Examples.

Lemma qr345_zero m n : qr345 (0 : 'M[rat]_(m, n)) = 0.
Proof. by rewrite /qr345 eqxx. Qed.

Lemma qr345_ok_zero m n : Sqrtm.qr_ok qr345 (0 : 'M[rat]_(m, n)).
Proof.
rewrite /Sqrtm.qr_ok /Sqrtm.r_factor_of qr345_zero !gram0 eqxx /=.
by rewrite /Sqrtm.upper_triangular trmx0; apply/is_trig_mxP => i j _; rewrite mxE.
Qed.

Lemma qr345_col m (M : 'M[rat]_(m, 1)) :
  Sqrtm.gram M = 25%:M -> qr345 M = 5%:M.
Proof.
move=> gM; have M0 : M != 0.
  by apply: contra_eq_neq gM => ->; rewrite gram0 eq_sym scalar_mx1_neq0.
by rewrite /qr345 (negPf M0); apply/matrixP => i j; rewrite !mxE !ord1.
Qed.

Lemma qr345_ok_col m (M : 'M[rat]_(m, 1)) :
  Sqrtm.gram M = 25%:M -> Sqrtm.qr_ok qr345 M.
Proof.
move=> gM; rewrite /Sqrtm.qr_ok /Sqrtm.r_factor_of (qr345_col gM) gM.
rewrite gram_scalar1 /Sqrtm.upper_triangular tr_scalar_mx scalar_mx_is_trig.
by rewrite andbT; apply/eqP; congr (_%:M).
Qed.

Lemma qr345_joint :
  qr345 (Sqrtm.joint_blocks (4%:M : 'M_1) (1%:M : 'M_1) (3%:M : 'M_1))
  = block_mx 5%:M (4 / 5)%:M 0 (3 / 5)%:M.
Proof.
set J := Sqrtm.joint_blocks _ _ _; have J0 : J != 0.
  apply/eqP => /matrixP/(_ (lshift 1 0) (lshift 1 0)).
  by rewrite /J /Sqrtm.joint_blocks block_mxEul !mxE.
rewrite /qr345 (negPf J0).
apply/matrixP => i j; rewrite [LHS]mxE.
case: (@split_ordP 1 1 i) => i' ->; case: (@split_ordP 1 1 j) => j' ->;
  by rewrite ?block_mxEul ?block_mxEur ?block_mxEdl ?block_mxEdr !mxE !ord1.
Qed.

Lemma qr345_ok_joint (x y z : rat) :
  x = 4 -> y = 1 -> z = 3 ->
  Sqrtm.qr_ok qr345
    (Sqrtm.joint_blocks (x%:M : 'M_1) (y%:M : 'M_1) (z%:M : 'M_1)).
Proof.
move=> -> -> ->.
rewrite /Sqrtm.qr_ok /Sqrtm.r_factor_of gram_joint_blocks qr345_joint.
apply/andP; split.
  rewrite /Sqrtm.gram tr_block_mx mulmx_block !tr_scalar_mx trmx0.
  rewrite !mulmx0 !mul0mx !addr0 -!scalar_mxM -!raddfD /=.
  by apply/eqP; congr (block_mx _%:M _%:M _%:M _%:M); apply/eqP.
rewrite /Sqrtm.upper_triangular tr_block_mx is_trig_block_mx //.
by rewrite trmx0 eqxx !tr_scalar_mx !scalar_mx_is_trig.
Qed.

Lemma gram_stack1 (U V : 'M[rat]_1) :
  Sqrtm.gram (col_mx U V) = (U 0 0 * U 0 0 + V 0 0 * V 0 0)%:M.
Proof.
rewrite gram_col_mx {1}(mx11_scalar U) {1}(mx11_scalar V) !gram_scalar1.
by rewrite -raddfD.
Qed.

Lemma qr345_ok_stack (U V : 'M[rat]_1) :
  U 0 0 * U 0 0 + V 0 0 * V 0 0 = 25 ->
  Sqrtm.qr_ok qr345 (col_mx U V).
Proof. by move=> uv; apply: qr345_ok_col; rewrite gram_stack1 uv. Qed.

Lemma qr345_stack (U V : 'M[rat]_1) :
  U 0 0 * U 0 0 + V 0 0 * V 0 0 = 25 ->
  Sqrtm.sum_of_sqrtm_factors qr345 U V = 5%:M.
Proof. by move=> uv; apply: qr345_col; rewrite gram_stack1 uv. Qed.

End ExampleFacts.

(** * Claims *)

(** ** Square-root kernels *)

(** C1.  For joint blocks on which the QR routine is right and whose marginal
    covariance [S = HC HC^T + X X^T] is invertible, [revert_conditional]
    returns [(extra, (bw_noise, g))] where [extra^T extra] is [S], [g] is the
    Kalman gain [K = C HC^T S^-1] and [bw_noise^T bw_noise] is the conditional
    covariance [C C^T - K S K^T].  The observation operator may have any
    shape: [HC] is [dy] by [m] and [C] is [dx] by [m]. *)
Theorem revert_conditional_analytic (F : fieldType)
    (qr_r : forall m n : nat, 'M[F]_(m, n) -> 'M[F]_n) k m dy dx
    (HC : 'M[F]_(dy, m)) (C : 'M[F]_(dx, m)) (X : 'M[F]_(dy, k)) :
  let S := HC *m HC^T + X *m X^T in
  let K := C *m HC^T *m invmx S in
  let C1 := C *m C^T - K *m S *m K^T in
  Sqrtm.qr_ok qr_r (Sqrtm.joint_blocks HC^T C^T X^T) ->
  S \in unitmx ->
  exists extra bw_noise g,
    [/\ Sqrtm.revert_conditional qr_r HC^T C^T X^T
          = Some (extra, (bw_noise, g)),
        Sqrtm.gram extra = S,
        g = K
      & Sqrtm.gram bw_noise = C1].
Proof.
move=> S K C1 okJ Sunit.
have SE : Sqrtm.gram X^T + Sqrtm.gram HC^T = S by rewrite !gram_tr addrC.
have [|R_ext [R_cor []]] := revert_conditional_correct okJ; first by rewrite SE.
rewrite SE !gram_tr !trmxK => rev eS eC.
by exists R_ext, R_cor, K.
Qed.

Lemma revert_conditional_analytic_witness :
  [/\ Sqrtm.qr_ok Examples.qr345
        (Sqrtm.joint_blocks (4%:M : 'M[rat]_1)^T (1%:M : 'M[rat]_1)^T
           (3%:M : 'M[rat]_1)^T),
      (4%:M : 'M[rat]_1) *m 4%:M^T + 3%:M *m 3%:M^T \in unitmx
    & exists extra bw_noise g,
      [/\ Sqrtm.revert_conditional Examples.qr345
            (4%:M : 'M[rat]_1)^T (1%:M : 'M[rat]_1)^T (3%:M : 'M[rat]_1)^T
            = Some (extra, (bw_noise, g)),
          Sqrtm.gram extra = 4%:M *m 4%:M^T + 3%:M *m 3%:M^T,
          g = 1%:M *m 4%:M^T *m invmx (4%:M *m 4%:M^T + 3%:M *m 3%:M^T)
        & Sqrtm.gram bw_noise =
          1%:M *m 1%:M^T
          - 1%:M *m 4%:M^T *m invmx (4%:M *m 4%:M^T + 3%:M *m 3%:M^T)
            *m (4%:M *m 4%:M^T + 3%:M *m 3%:M^T)
            *m (1%:M *m 4%:M^T
                *m invmx (4%:M *m 4%:M^T + 3%:M *m 3%:M^T))^T]].
Proof.
have okJ : Sqrtm.qr_ok Examples.qr345
    (Sqrtm.joint_blocks (4%:M : 'M[rat]_1)^T (1%:M : 'M[rat]_1)^T
       (3%:M : 'M[rat]_1)^T).
  by rewrite !tr_scalar_mx; exact: qr345_ok_joint.
have Sunit : (4%:M : 'M[rat]_1) *m 4%:M^T + 3%:M *m 3%:M^T \in unitmx.
  by scalar1; rewrite -raddfD /=; exact: scalar_mx_unit.
split=> //.
exact: (@revert_conditional_analytic _ Examples.qr345 1 1 1 1
          4%:M 1%:M 3%:M okJ Sunit).
Defined.

(** C2.  Where the QR routine is right on the stack [[R1; R2]],
    [sum_of_sqrtm_factors] returns [R] with [R^T R = R1^T R1 + R2^T R2].
    Consequently, where it is right on the stack that [marginalise] builds,
    the marginal has mean [operator mean + noise mean] and its factor [L]
    has [L L^T = operator cov operator^T + noise cov]. *)
Theorem sum_of_sqrtm_factors_marginalise (F : fieldType)
    (qr_r : forall m n : nat, 'M[F]_(m, n) -> 'M[F]_n) m1 m2 n k k'
    (R1 : 'M[F]_(m1, n)) (R2 : 'M[F]_(m2, n))
    (init : Markov.Normal F k) (operator : 'M[F]_(k', k))
    (noise : Markov.Normal F k') :
  Sqrtm.qr_ok qr_r (col_mx R1 R2) ->
  Sqrtm.qr_ok qr_r
    (col_mx (operator *m Markov.cov_sqrtm_lower init)^T
            (Markov.cov_sqrtm_lower noise)^T) ->
  let R := Sqrtm.sum_of_sqrtm_factors qr_r R1 R2 in
  let out := Markov.marginalise qr_r init operator noise in
  [/\ R^T *m R = R1^T *m R1 + R2^T *m R2,
      Markov.mean out = operator *m Markov.mean init + Markov.mean noise
    & Markov.cov_sqrtm_lower out *m (Markov.cov_sqrtm_lower out)^T
      = operator
          *m (Markov.cov_sqrtm_lower init *m (Markov.cov_sqrtm_lower init)^T)
          *m operator^T
        + Markov.cov_sqrtm_lower noise *m (Markov.cov_sqrtm_lower noise)^T].
Proof.
move=> ok12 okm R out; split=> //.
  exact: (sum_of_sqrtm_factors_gram ok12).
by have := sum_of_sqrtm_factors_cov okm; rewrite cov_mul.
Qed.

Lemma sum_of_sqrtm_factors_marginalise_witness :
  [/\ Sqrtm.qr_ok Examples.qr345
        (col_mx (3%:M : 'M[rat]_1) (4%:M : 'M[rat]_1)),
      Sqrtm.qr_ok Examples.qr345
        (col_mx
           ((1%:M : 'M[rat]_1)
              *m Markov.cov_sqrtm_lower
                   (Markov.MkNormal (1%:M : 'cV[rat]_1) 3%:M))^T
           (Markov.cov_sqrtm_lower (Markov.MkNormal (0 : 'cV[rat]_1) 4%:M))^T)
    & let R := Sqrtm.sum_of_sqrtm_factors Examples.qr345
                 (3%:M : 'M[rat]_1) (4%:M : 'M[rat]_1) in
      let out := Markov.marginalise Examples.qr345
                   (Markov.MkNormal (1%:M : 'cV[rat]_1) 3%:M)
                   (1%:M : 'M[rat]_1)
                   (Markov.MkNormal (0 : 'cV[rat]_1) 4%:M) in
      [/\ R^T *m R = 3%:M^T *m 3%:M + 4%:M^T *m 4%:M,
          Markov.mean out = 1%:M *m 1%:M + 0
        & Markov.cov_sqrtm_lower out *m (Markov.cov_sqrtm_lower out)^T
          = 1%:M *m (3%:M *m 3%:M^T) *m 1%:M^T + 4%:M *m 4%:M^T]].
Proof.
have ok1 : Sqrtm.qr_ok Examples.qr345
    (col_mx (3%:M : 'M[rat]_1) (4%:M : 'M[rat]_1)).
  apply: qr345_ok_col; rewrite gram_col_mx !gram_scalar1 -raddfD /=.
  by congr (_%:M); apply/eqP.
have ok2 : Sqrtm.qr_ok Examples.qr345
    (col_mx
       ((1%:M : 'M[rat]_1)
          *m Markov.cov_sqrtm_lower
               (Markov.MkNormal (1%:M : 'cV[rat]_1) 3%:M))^T
       (Markov.cov_sqrtm_lower (Markov.MkNormal (0 : 'cV[rat]_1) 4%:M))^T).
  by rewrite /= mul1mx !tr_scalar_mx.
split=> //.
exact: (@sum_of_sqrtm_factors_marginalise _ Examples.qr345 1 1 1 1 1
          3%:M 4%:M (Markov.MkNormal (1%:M : 'cV[rat]_1) 3%:M) 1%:M
          (Markov.MkNormal (0 : 'cV[rat]_1) 4%:M) ok1 ok2).
Defined.

(** ** The error estimate *)

(** C4, as stated, fails: with a prior without process noise the
    observation-noise magnitude is zero, nothing guards it, and the residual
    is divided by zero. *)
Lemma estimate_error_divides_by_zero :
  Sqrtm.qr_ok Examples.qr345
    (Examples.first_row
       (diag_mx Examples.unit_scaling
          *m Isotropic.q_sqrtm_lower Examples.impl_noise_free))^T
  /\ Isotropic.estimate_error Examples.qr345 Examples.sqrt01
       Examples.impl_noise_free Examples.first_row (1%:M : 'rV[rat]_1)
       Examples.unit_scaling
     = None.
Proof.
have raw0 : Examples.first_row
    (diag_mx Examples.unit_scaling
       *m Isotropic.q_sqrtm_lower Examples.impl_noise_free) = 0.
  by rewrite /Examples.first_row /= mulmx0 linear0.
split; first by rewrite raw0 trmx0; exact: qr345_ok_zero.
rewrite /Isotropic.estimate_error raw0 trmx0 /Sqrtm.sqrtm_to_cholesky.
by rewrite qr345_zero trmx0 mxE divide_by_none.
Qed.

Section ErrorEstimateClaim.

Variable F : realFieldType.
Variable qr_r : forall m n : nat, 'M[F]_(m, n) -> 'M[F]_n.
Variable sqrt : F -> F.
Variables n d : nat.
Variable self : Isotropic.IsotropicImplementation F n.
Variable linear_fn : 'M[F]_n -> 'rV[F]_n.
Variables (m_obs : 'rV[F]_d) (p : 'rV[F]_n).

Local Notation l_obs_raw :=
  (linear_fn (diag_mx p *m Isotropic.q_sqrtm_lower self)).
Local Notation l_obs := (Sqrtm.sqrtm_to_cholesky qr_r l_obs_raw^T 0 0).

(** C4, amended.  [estimate_error] whitens the residual by the
    observation-noise magnitude [l_obs] without guarding it.  Where the QR
    routine is right, [l_obs] is zero exactly when
    [linear_fn(p * q_sqrtm_lower)] is zero, and then the division has no
    result; otherwise, for a non-zero [sqrt(m_obs.size)], the method returns
    [diffusion_sqrtm] and [diffusion_sqrtm * l_obs], where [diffusion_sqrtm]
    squares to the squared norm of [m_obs / l_obs / sqrt(m_obs.size)]. *)
Theorem estimate_error_unguarded :
  Sqrtm.qr_ok qr_r l_obs_raw^T ->
  let res_white := (sqrt d%:R)^-1 *: (l_obs^-1 *: m_obs) in
  let diffusion_sqrtm := Sqrtm.sqrtm_to_cholesky qr_r res_white^T 0 0 in
  [/\ (l_obs == 0) = (l_obs_raw == 0),
      l_obs_raw = 0 ->
      Isotropic.estimate_error qr_r sqrt self linear_fn m_obs p = None,
      l_obs_raw != 0 -> sqrt d%:R != 0 ->
      Isotropic.estimate_error qr_r sqrt self linear_fn m_obs p
      = Some (diffusion_sqrtm, diffusion_sqrtm * l_obs)
    & Sqrtm.qr_ok qr_r res_white^T ->
      diffusion_sqrtm ^+ 2 = (res_white *m res_white^T) 0 0].
Proof.
move=> ok res_white diffusion_sqrtm.
have l0 := sqrtm_to_cholesky_col_eq0 ok.
split=> //.
- move=> raw0; rewrite /Isotropic.estimate_error.
  by move: l0; rewrite raw0 eqxx => /eqP->; rewrite divide_by_none.
- move=> raw0 sq0; rewrite /Isotropic.estimate_error.
  by rewrite divide_by_some ?l0 // divide_by_some.
- exact: sqrtm_to_cholesky_col_sq.
Qed.

End ErrorEstimateClaim.

Lemma estimate_error_unguarded_witness :
  Sqrtm.qr_ok Examples.qr345
    (Examples.first_row
       (diag_mx Examples.unit_scaling
          *m Isotropic.q_sqrtm_lower Examples.impl_noise5))^T
  /\ Isotropic.estimate_error Examples.qr345 Examples.sqrt01
       Examples.impl_noise5 Examples.first_row (25%:M : 'rV[rat]_1)
       Examples.unit_scaling
     = Some (5, 25).
Proof.
have rawE : Examples.first_row
    (diag_mx Examples.unit_scaling
       *m Isotropic.q_sqrtm_lower Examples.impl_noise5) = 5%:M.
  rewrite /Examples.first_row /Examples.unit_scaling; scalar1; by rewrite mul1r.
have ok : Sqrtm.qr_ok Examples.qr345
    (Examples.first_row
       (diag_mx Examples.unit_scaling
          *m Isotropic.q_sqrtm_lower Examples.impl_noise5))^T.
  rewrite rawE tr_scalar_mx; apply: qr345_ok_col.
  by rewrite gram_scalar1; congr (_%:M); apply/eqP.
split=> //.
have [_ _ some_ _] :=
  @estimate_error_unguarded _ Examples.qr345 Examples.sqrt01 1 1
    Examples.impl_noise5 Examples.first_row 25%:M Examples.unit_scaling ok.
rewrite some_ ?rawE ?scalar_mx1_neq0 //.
have l5 : Sqrtm.sqrtm_to_cholesky Examples.qr345 (5%:M : 'rV[rat]_1)^T 0 0 = 5.
  have g5 : Sqrtm.gram (5%:M : 'M[rat]_1) = 25%:M.
    by rewrite gram_scalar1; congr (_%:M); apply/eqP.
  by rewrite /Sqrtm.sqrtm_to_cholesky tr_scalar_mx (qr345_col g5) tr_scalar_mx mxE.
rewrite l5 /Examples.sqrt01 scale_scalar_mx scale_scalar_mx.
have -> : ((1%:R : rat)^-1 * (5^-1 * 25)) = 5 by apply/eqP.
by rewrite l5; congr (Some (_, _)); apply/eqP.
Defined.

(** ** The preconditioner *)

Section PreconditionerClaim.

Variable F : fieldType.
Variable qr_r : forall m n : nat, 'M[F]_(m, n) -> 'M[F]_n.
Variables n d : nat.
Variable self : Isotropic.IsotropicImplementation F n.
Variables (m0 : 'M[F]_(n, d)) (l0 : 'M[F]_n).
Variables p p_inv : 'rV[F]_n.
Variable diffusion_sqrtm : F.
Hypothesis p_inverse : forall i, p 0 i * p_inv 0 i = 1.

Local Notation P := (diag_mx p).
Local Notation Pi := (diag_mx p_inv).
Local Notation cov := (@Sqrtm.cov F _ _).
Local Notation A := (Isotropic.a self).
Local Notation Q := (Isotropic.q_sqrtm_lower self).
Local Notation a_ph := (Isotropic.physical_transition self p p_inv).
Local Notation S := (Isotropic.physical_marginal_cov self l0 p p_inv diffusion_sqrtm).
Local Notation l0_p := (Pi *m l0).
Local Notation S_p :=
  (Sqrtm.gram (diffusion_sqrtm *: Q)^T + Sqrtm.gram (A *m l0_p)^T).
Local Notation K_p := (l0_p^T^T *m (A *m l0_p)^T *m invmx S_p).

(** C5.  With [p_inv] the entrywise inverse of [p], the preconditioner is
    applied before the transition and noise algebra and exactly inverted
    afterwards.  [extrapolate_mean] returns [m_ext = p * (a (p_inv * m0))],
    the mean under the physical transition [p * a * p_inv].  The covariance
    factor of [complete_extrapolation] carries the physical covariance [S].
    [revert_markov_kernel] returns the preconditioned factors, mean and gain
    of [revert_conditional] with the preconditioner un-applied, the gain as
    [p * g_p * p_inv]; they are the physical quantities: covariance [S], gain
    [cov0 a_ph^T S^-1], noise mean [m0 - g m_ext] and noise covariance
    [cov0 - g S g^T]. *)
Theorem preconditioner_unapplied :
  let em := Isotropic.extrapolate_mean self m0 p p_inv in
  let m_ext := em.1.1 in
  let m_ext_p := em.1.2 in
  let m0_p := em.2 in
  Sqrtm.qr_ok qr_r (Isotropic.extrapolation_stack self l0 p_inv diffusion_sqrtm) ->
  Sqrtm.qr_ok qr_r (Isotropic.extrapolation_joint self l0 p_inv diffusion_sqrtm) ->
  S \in unitmx ->
  [/\ m_ext = P *m (A *m (Pi *m m0)),
      m_ext = a_ph *m m0,
      cov (Isotropic.cov_sqrtm_lower
            (Isotropic.complete_extrapolation qr_r self m_ext l0 p_inv p
               diffusion_sqrtm)) = S
    & exists r_ext_p r_bw_p g_p,
      [/\ Sqrtm.revert_conditional qr_r (A *m l0_p)^T l0_p^T
            (diffusion_sqrtm *: Q)^T = Some (r_ext_p, (r_bw_p, g_p)),
          Isotropic.revert_markov_kernel qr_r self m_ext l0 p p_inv
            diffusion_sqrtm m0_p m_ext_p
          = Some (Isotropic.MkNormal m_ext (P *m r_ext_p^T),
                  (Isotropic.MkNormal (P *m (m0_p - g_p *m m_ext_p))
                     (P *m r_bw_p^T),
                   P *m g_p *m Pi))
        & let g_bw := P *m g_p *m Pi in
          [/\ cov (P *m r_ext_p^T) = S,
              g_bw = cov l0 *m a_ph^T *m invmx S,
              P *m (m0_p - g_p *m m_ext_p) = m0 - g_bw *m m_ext
            & cov (P *m r_bw_p^T) = cov l0 - g_bw *m S *m g_bw^T]]].
Proof.
move=> em m_ext m_ext_p m0_p okS okJ Sunit.
have Spunit := marginal_cov_unit Sunit.
split=> //.
- by rewrite /m_ext /= /Isotropic.physical_transition -!mulmxA.
- exact: complete_extrapolation_cov.
have [R_ext [R_cor [rev eS eC]]] := revert_conditional_correct okJ Spunit.
have gE := gain_unapply p_inverse Sunit.
have SE := marginal_cov_unapply self l0 p p_inv diffusion_sqrtm.
move: rev eS eC gE SE; set Sp := S_p; set Kp := K_p => rev eS eC gE SE.
exists R_ext, R_cor, Kp; split=> //.
  by rewrite /Isotropic.revert_markov_kernel rev.
clearbody Sp Kp; split=> //.
- by rewrite (cov_unapply p) cov_tr eS SE.
- rewrite mulmxBr /m0_p /m_ext /m_ext_p /= (unapplyK p_inverse).
  by rewrite -!mulmxA (applyK p_inverse).
- rewrite (cov_unapply p) cov_tr eC gram_tr (cov_apply p_inv).
  rewrite mulmxBr mulmxBl !mulmxA (precondition_unapply p_inverse) mul1mx.
  rewrite (unapplyKr p_inverse) SE.
  rewrite !trmx_mul !tr_diag_mx !mulmxA (unapplyKr p_inverse).
  by rewrite -[_ *m P *m Pi]mulmxA (precondition_unapply p_inverse) mulmx1.
Qed.

End PreconditionerClaim.

Lemma preconditioner_unapplied_witness :
  [/\ forall i, Examples.precon 0 i * Examples.precon_inv 0 i = 1,
      Sqrtm.qr_ok Examples.qr345
        (Isotropic.extrapolation_stack Examples.impl 2%:M
           Examples.precon_inv 3),
      Sqrtm.qr_ok Examples.qr345
        (Isotropic.extrapolation_joint Examples.impl 2%:M
           Examples.precon_inv 3),
      Isotropic.physical_marginal_cov Examples.impl 2%:M Examples.precon
        Examples.precon_inv 3 \in unitmx
    & let m_ext :=
        (Isotropic.extrapolate_mean Examples.impl (1%:M : 'M[rat]_1)
           Examples.precon Examples.precon_inv).1.1 in
      m_ext = Isotropic.physical_transition Examples.impl Examples.precon
                Examples.precon_inv *m 1%:M
      /\ Sqrtm.cov
           (Isotropic.cov_sqrtm_lower
              (Isotropic.complete_extrapolation Examples.qr345 Examples.impl
                 m_ext 2%:M Examples.precon_inv Examples.precon 3))
         = Isotropic.physical_marginal_cov Examples.impl 2%:M Examples.precon
             Examples.precon_inv 3].
Proof.
have pK : forall i, Examples.precon 0 i * Examples.precon_inv 0 i = 1.
  by move=> i; rewrite !mxE !ord1 /=; apply/eqP.
have okS : Sqrtm.qr_ok Examples.qr345
    (Isotropic.extrapolation_stack Examples.impl 2%:M Examples.precon_inv 3).
  rewrite /Isotropic.extrapolation_stack /Examples.precon_inv; scalar1.
  apply: qr345_ok_col; rewrite gram_col_mx !gram_scalar1 -raddfD /=.
  by congr (_%:M); apply/eqP.
have okJ : Sqrtm.qr_ok Examples.qr345
    (Isotropic.extrapolation_joint Examples.impl 2%:M Examples.precon_inv 3).
  rewrite /Isotropic.extrapolation_joint /Examples.precon_inv; scalar1.
  by apply: qr345_ok_joint; apply/eqP.
have Sunit : Isotropic.physical_marginal_cov Examples.impl 2%:M
    Examples.precon Examples.precon_inv 3 \in unitmx.
  rewrite /Isotropic.physical_marginal_cov /Isotropic.physical_transition.
  rewrite /Isotropic.physical_noise_sqrtm /Sqrtm.cov.
  rewrite /Examples.precon /Examples.precon_inv; scalar1.
  by rewrite -raddfD /=; exact: scalar_mx_unit.
split=> //.
have [_ mE cE _] :=
  @preconditioner_unapplied _ Examples.qr345 1 1 Examples.impl 1%:M 2%:M
    Examples.precon Examples.precon_inv 3 pK okS okJ Sunit.
by split.
Defined.

(** ** Correction, condensation and backward marginalisation *)

Section IsotropicClaims.

Variable F : fieldType.
Variable qr_r : forall m n : nat, 'M[F]_(m, n) -> 'M[F]_n.
Variables n d : nat.

Local Notation IsotropicNormal := (Isotropic.IsotropicNormal F n d).
Local Notation BackwardModel := (Isotropic.BackwardModel F n d).
Local Notation cov := (@Sqrtm.cov F _ _).
Local Notation condense := (@Isotropic.condense_backward_models F qr_r n d).
Local Notation wrap := (@Isotropic.as_backward_model F n d).

(** C8.  With [l_obs = linear_fn(l_ext)], a non-zero [c_obs = l_obs . l_obs]
    and [g = (l_ext l_obs^T) / c_obs], [final_correction] returns the mean
    [m_ext - g m_obs] and a factor [l_cor] with
    [l_cor l_cor^T = l_ext l_ext^T - c_obs g g^T], the posterior of the
    noise-free residual model. *)
Theorem final_correction_exact (extrapolated : IsotropicNormal)
    (linear_fn : 'M[F]_n -> 'rV[F]_n) (m_obs : 'rV[F]_d) :
  let m_ext := Isotropic.mean extrapolated in
  let l_ext := Isotropic.cov_sqrtm_lower extrapolated in
  let l_obs := linear_fn l_ext in
  let c_obs := (l_obs *m l_obs^T) 0 0 in
  let g := c_obs^-1 *: (l_ext *m l_obs^T) in
  c_obs != 0 ->
  exists corrected,
    [/\ Isotropic.final_correction extrapolated linear_fn m_obs
          = Some corrected,
        Isotropic.mean corrected = m_ext - g *m m_obs
      & Isotropic.cov_sqrtm_lower corrected
          *m (Isotropic.cov_sqrtm_lower corrected)^T
        = l_ext *m l_ext^T - c_obs *: (g *m g^T)].
Proof.
move=> m_ext l_ext l_obs c_obs g c0.
exists (Isotropic.MkNormal (m_ext - g *m m_obs) (l_ext - g *m l_obs)).
split=> //=; first by rewrite /Isotropic.final_correction divide_by_some.
apply: cov_rank_one_update; first exact: mx11_scalar.
by rewrite /g scalerA divff // scale1r.
Qed.

(** C9.  Condensing is associative: where the QR routine is right on the four
    stacks involved, condensing [x] with [y] and the result with [z] gives
    the same transition, the same noise mean and the same noise covariance as
    condensing [x] with the condensation of [y] and [z]. *)
Theorem condense_backward_models_assoc (x y z : BackwardModel) :
  let xy := wrap (condense x y) in
  let yz := wrap (condense y z) in
  let l := condense xy z in
  let r := condense x yz in
  Sqrtm.qr_ok qr_r (Isotropic.condense_stack x y) ->
  Sqrtm.qr_ok qr_r (Isotropic.condense_stack y z) ->
  Sqrtm.qr_ok qr_r (Isotropic.condense_stack xy z) ->
  Sqrtm.qr_ok qr_r (Isotropic.condense_stack x yz) ->
  [/\ l.2 = r.2,
      Isotropic.mean l.1 = Isotropic.mean r.1
    & Isotropic.cov_sqrtm_lower l.1 *m (Isotropic.cov_sqrtm_lower l.1)^T
      = Isotropic.cov_sqrtm_lower r.1 *m (Isotropic.cov_sqrtm_lower r.1)^T].
Proof.
move=> xy yz l r okxy okyz okl okr; split.
- by rewrite /l /r /= mulmxA.
- by rewrite /l /r /= mulmxDr mulmxA addrA.
- have := condense_backward_models_cov okl.
  have := condense_backward_models_cov okr.
  rewrite /Sqrtm.cov => -> ->.
  rewrite [in LHS]/xy [in RHS]/yz /=.
  have := condense_backward_models_cov okxy.
  have := condense_backward_models_cov okyz.
  rewrite /Sqrtm.cov => -> ->.
  by rewrite trmx_mul mulmxDr mulmxDl !mulmxA addrA.
Qed.

(** C10.  [marginalise_backwards] never reads the backward model at index
    [0]: two stored sequences that differ only there give the same
    marginals. *)
Theorem marginalise_backwards_skips_first (init : IsotropicNormal)
    (bw0 bw0' : BackwardModel) (rest : seq BackwardModel) :
  Isotropic.marginalise_backwards qr_r init (bw0 :: rest)
  = Isotropic.marginalise_backwards qr_r init (bw0' :: rest).
Proof. by []. Qed.

End IsotropicClaims.

Lemma final_correction_exact_witness :
  ((Examples.first_row 2%:M *m (Examples.first_row 2%:M)^T) 0 0 != 0)
  /\ exists corrected,
       Isotropic.final_correction
         (Isotropic.MkNormal (1%:M : 'M[rat]_1) 2%:M)
         Examples.first_row (3%:M : 'rV[rat]_1)
       = Some corrected.
Proof.
have c0 : (Examples.first_row 2%:M *m (Examples.first_row 2%:M)^T) 0 0 != 0.
  by rewrite /Examples.first_row; scalar1; rewrite mxE.
split=> //.
have [corrected [cE _ _]] :=
  @final_correction_exact _ 1 1 (Isotropic.MkNormal (1%:M : 'M[rat]_1) 2%:M)
    Examples.first_row 3%:M c0.
by exists corrected.
Defined.

Lemma condense_backward_models_assoc_witness :
  let xy := Isotropic.as_backward_model
              (Isotropic.condense_backward_models Examples.qr345
                 Examples.bw_x Examples.bw_y) in
  let yz := Isotropic.as_backward_model
              (Isotropic.condense_backward_models Examples.qr345
                 Examples.bw_y Examples.bw_z) in
  [/\ Sqrtm.qr_ok Examples.qr345
        (Isotropic.condense_stack Examples.bw_x Examples.bw_y),
      Sqrtm.qr_ok Examples.qr345
        (Isotropic.condense_stack Examples.bw_y Examples.bw_z),
      Sqrtm.qr_ok Examples.qr345 (Isotropic.condense_stack xy Examples.bw_z),
      Sqrtm.qr_ok Examples.qr345 (Isotropic.condense_stack Examples.bw_x yz)
    & (Isotropic.condense_backward_models Examples.qr345 xy Examples.bw_z).2
      = (Isotropic.condense_backward_models Examples.qr345 Examples.bw_x yz).2].
Proof.
move=> xy yz.
have okxy : Sqrtm.qr_ok Examples.qr345
    (Isotropic.condense_stack Examples.bw_x Examples.bw_y).
  rewrite /Isotropic.condense_stack; scalar1.
  by apply: qr345_ok_stack; rewrite !mxE; apply/eqP.
have okyz : Sqrtm.qr_ok Examples.qr345
    (Isotropic.condense_stack Examples.bw_y Examples.bw_z).
  rewrite /Isotropic.condense_stack; scalar1.
  by apply: qr345_ok_stack; rewrite !mxE; apply/eqP.
have sxy : Sqrtm.sum_of_sqrtm_factors Examples.qr345
    ((3 / 5 * 5)%:M : 'M[rat]_1) (4%:M : 'M[rat]_1) = 5%:M.
  by apply: qr345_stack; rewrite !mxE; apply/eqP.
have syz : Sqrtm.sum_of_sqrtm_factors Examples.qr345
    (0 : 'M[rat]_1) (5%:M : 'M[rat]_1) = 5%:M.
  by apply: qr345_stack; rewrite !mxE; apply/eqP.
have okl : Sqrtm.qr_ok Examples.qr345
    (Isotropic.condense_stack xy Examples.bw_z).
  rewrite /Isotropic.condense_stack /xy; scalar1; rewrite sxy.
  by apply: qr345_ok_stack; rewrite !mxE; apply/eqP.
have okr : Sqrtm.qr_ok Examples.qr345
    (Isotropic.condense_stack Examples.bw_x yz).
  rewrite /Isotropic.condense_stack /yz; scalar1; rewrite syz; scalar1.
  by apply: qr345_ok_stack; rewrite !mxE; apply/eqP.
split=> //.
have [gE _ _] :=
  @condense_backward_models_assoc _ Examples.qr345 1 1
    Examples.bw_x Examples.bw_y Examples.bw_z okxy okyz okl okr.
exact: gE.
Defined.

(** * Further properties *)

(** ** Scans *)

Section ScanFacts.

Variables C X Y : Type.
Variable f : C -> X -> C * Y.

Lemma scan_cat (init : C) (xs ys : seq X) :
  Markov.scan f init (xs ++ ys)
  = ((Markov.scan f (Markov.scan f init xs).1 ys).1,
     (Markov.scan f init xs).2
       ++ (Markov.scan f (Markov.scan f init xs).1 ys).2).
Proof.
elim: xs init => [|x xs IH] init /=; first by case: (Markov.scan f init ys).
case: (f init x) => c y; rewrite IH.
by case: (Markov.scan f c xs) => c1 o1 /=.
Qed.

Lemma size_scan (init : C) (xs : seq X) :
  size (Markov.scan f init xs).2 = size xs.
Proof.
elim: xs init => [|x xs IH] init //=.
by case: (f init x) => c y; move: (IH c); case: (Markov.scan f c xs) => c1 o1 /= ->.
Qed.

Lemma size_scan_dir (init : C) (xs : seq X) (reverse : bool) :
  size (Markov.scan_dir f init xs reverse).2 = size xs.
Proof.
rewrite /Markov.scan_dir; case: reverse; last exact: size_scan.
move: (size_scan init (rev xs)); case: (Markov.scan f init (rev xs)) => c ys /=.
by rewrite !size_rev.
Qed.

End ScanFacts.

Section ScanOut.

Variables C X : Type.
Variable g : C -> X -> C.

Local Notation body := (fun c x => (g c x, g c x)).

(** A scan whose body returns its output as the next carry ends with its last
    output as carry. *)
Lemma scan_carry_last (init : C) (xs : seq X) :
  (Markov.scan body init xs).1 = last init (Markov.scan body init xs).2.
Proof.
elim: xs init => [|x xs IH] init //=.
by move: (IH (g init x)); case: (Markov.scan _ (g init x) xs) => c ys /= ->.
Qed.

End ScanOut.

(** ** Marginalising a Markov sequence *)

Section MarkovSequenceFacts.

Variable F : fieldType.
Variable n : nat.

Local Notation Normal := (Markov.Normal F n).
Local Notation transition := ('M[F]_n * Normal)%type.
Local Notation MkSeq := (@Markov.MkMarkovSequence F n).

Section OneRoutine.

Variable qr_r : forall m n : nat, 'M[F]_(m, n) -> 'M[F]_n.

Local Notation step :=
  (fun (c : Normal) (x : transition) => Markov.marginalise qr_r c x.1 x.2).
Local Notation body := (fun c x => (step c x, step c x)).
Local Notation marginalise_sequence := (Markov.marginalise_sequence qr_r).

Lemma marginalise_sequenceE (s : Markov.MarkovSequence F n) :
  marginalise_sequence s
  = (Markov.scan_dir body (Markov.init s) (Markov.transitions s)
       (Markov.reverse s)).2.
Proof.
rewrite /Markov.marginalise_sequence /Markov.scan_dir.
have scanE c ts :
    Markov.scan (fun carry (x : transition) =>
                   let: (op, noise) := x in
                   let out := Markov.marginalise qr_r carry op noise in
                   (out, out)) c ts
    = Markov.scan body c ts.
  by elim: ts c => [|[op nz] ts IH] c //=; rewrite IH.
by rewrite !scanE.
Qed.

(** X1.  Where the sequence stores as many noises as operators,
    [marginalise_sequence] returns one marginal per transition, in either
    direction. *)
Theorem marginalise_sequence_size (s : Markov.MarkovSequence F n) :
  size (Markov.transition_operators s) = size (Markov.transition_noise_rvs s) ->
  size (marginalise_sequence s) = size (Markov.transition_operators s).
Proof.
move=> eqsz; rewrite marginalise_sequenceE size_scan_dir /Markov.transitions.
by rewrite size_zip -eqsz minnn.
Qed.

(** X2.  For legs that each store as many noises as operators, a forward
    pass over two legs is the pass over the first leg followed
    by the pass over the second leg started from the last marginal of the
    first (from [init] itself where the first leg is empty). *)
Theorem marginalise_sequence_cat_forward
    (ops1 ops2 : seq 'M[F]_n) (nz1 nz2 : seq Normal) (init : Normal) :
  size ops1 = size nz1 -> size ops2 = size nz2 ->
  let first := marginalise_sequence (MkSeq ops1 nz1 init false) in
  marginalise_sequence (MkSeq (ops1 ++ ops2) (nz1 ++ nz2) init false)
  = first ++ marginalise_sequence (MkSeq ops2 nz2 (last init first) false).
Proof.
move=> eqsz _ first; rewrite /first !marginalise_sequenceE /Markov.transitions /=.
by rewrite zip_cat // scan_cat /= scan_carry_last.
Qed.

(** X3.  For legs that each store as many noises as operators, a reverse
    pass over two legs runs the second leg first: its
    marginals close the result, and the first leg is passed over starting
    from the earliest marginal of the second (from [init] itself where the
    second leg is empty). *)
Theorem marginalise_sequence_cat_reverse
    (ops1 ops2 : seq 'M[F]_n) (nz1 nz2 : seq Normal) (init : Normal) :
  size ops1 = size nz1 -> size ops2 = size nz2 ->
  let second := marginalise_sequence (MkSeq ops2 nz2 init true) in
  marginalise_sequence (MkSeq (ops1 ++ ops2) (nz1 ++ nz2) init true)
  = marginalise_sequence (MkSeq ops1 nz1 (head init second) true) ++ second.
Proof.
move=> eqsz _ second; rewrite /second !marginalise_sequenceE /Markov.transitions /=.
rewrite zip_cat // rev_cat scan_cat /= scan_carry_last.
case: (Markov.scan _ init (rev (zip ops2 nz2))) => c2 o2 /=.
rewrite -[last init o2]/(last init o2).
have -> : head init (rev o2) = last init o2.
  by case/lastP: o2 => [|o2 y] //; rewrite rev_rcons last_rcons.
by case: (Markov.scan _ (last init o2) (rev (zip ops1 nz1))) => c1 o1 /=; rewrite rev_cat.
Qed.

End OneRoutine.


Section TwoRoutines.

Variables qr1 qr2 : forall m n : nat, 'M[F]_(m, n) -> 'M[F]_n.

Local Notation step1 :=
  (fun (c : Normal) (x : transition) => Markov.marginalise qr1 c x.1 x.2).
Local Notation step2 :=
  (fun (c : Normal) (x : transition) => Markov.marginalise qr2 c x.1 x.2).
Local Notation means_of :=
  (map (fun x : transition => (x.1, Markov.mean x.2))).

Lemma scan_means (c1 c2 : Normal) (t1 t2 : seq transition) :
  Markov.mean c1 = Markov.mean c2 -> means_of t1 = means_of t2 ->
  map (@Markov.mean F n)
    (Markov.scan (fun c x => (step1 c x, step1 c x)) c1 t1).2
  = map (@Markov.mean F n)
      (Markov.scan (fun c x => (step2 c x, step2 c x)) c2 t2).2.
Proof.
elim: t1 t2 c1 c2 => [|[op1 z1] t1 IH] [|[op2 z2] t2] c1 c2 //= mc [eop ez] et.
have ms : Markov.mean (Markov.marginalise qr1 c1 op1 z1)
          = Markov.mean (Markov.marginalise qr2 c2 op2 z2).
  by rewrite /= mc eop ez.
move: (IH t2 _ _ ms et).
case: (Markov.scan _ _ t1) => a1 o1; case: (Markov.scan _ _ t2) => a2 o2 /= ->.
by rewrite mc eop ez.
Qed.

Lemma means_of_zip (ops : seq 'M[F]_n) (nz : seq Normal) :
  means_of (zip ops nz) = zip ops (map (@Markov.mean F n) nz).
Proof. by elim: ops nz => [|op ops IH] [|z nz] //=; rewrite IH. Qed.

(** X4.  For sequences that store as many noises as operators, the means
    that [marginalise_sequence] returns depend on the
    operators, the noise means, the initial mean and the direction only:
    neither the covariance factors nor the QR routine behind
    [sum_of_sqrtm_factors] reach them. *)
Theorem marginalise_sequence_mean_independent
    (s1 s2 : Markov.MarkovSequence F n) :
  size (Markov.transition_operators s1)
    = size (Markov.transition_noise_rvs s1) ->
  Markov.transition_operators s1 = Markov.transition_operators s2 ->
  map (@Markov.mean F n) (Markov.transition_noise_rvs s1)
    = map (@Markov.mean F n) (Markov.transition_noise_rvs s2) ->
  Markov.mean (Markov.init s1) = Markov.mean (Markov.init s2) ->
  Markov.reverse s1 = Markov.reverse s2 ->
  map (@Markov.mean F n) (Markov.marginalise_sequence qr1 s1)
  = map (@Markov.mean F n) (Markov.marginalise_sequence qr2 s2).
Proof.
move=> _ eops enz einit erev; rewrite !marginalise_sequenceE -erev.
have et : means_of (Markov.transitions s1) = means_of (Markov.transitions s2).
  by rewrite /Markov.transitions !means_of_zip eops enz.
rewrite /Markov.scan_dir; case: (Markov.reverse s1); last exact: scan_means.
have etr : means_of (rev (Markov.transitions s1))
           = means_of (rev (Markov.transitions s2)) by rewrite !map_rev et.
move: (scan_means einit etr).
case: (Markov.scan _ _ (rev (Markov.transitions s1))) => a1 o1.
case: (Markov.scan _ _ (rev (Markov.transitions s2))) => a2 o2 /=.
by rewrite !map_rev => ->.
Qed.

End TwoRoutines.

End MarkovSequenceFacts.

Lemma marginalise_sequence_size_witness :
  size (Markov.transition_operators MoreExamples.seq_a)
  = size (Markov.transition_noise_rvs MoreExamples.seq_a)
  /\ size (Markov.marginalise_sequence Examples.qr345 MoreExamples.seq_a)
     = size (Markov.transition_operators MoreExamples.seq_a).
Proof.
have eqsz : size (Markov.transition_operators MoreExamples.seq_a)
            = size (Markov.transition_noise_rvs MoreExamples.seq_a) by [].
split; first by [].
exact: (marginalise_sequence_size Examples.qr345 eqsz).
Defined.

Lemma marginalise_sequence_cat_forward_witness :
  size [:: (2%:M : 'M[rat]_1)] = size [:: Markov.MkNormal (1%:M : 'cV[rat]_1) 3%:M]
  /\ size [:: (3%:M : 'M[rat]_1)]
     = size [:: Markov.MkNormal (2%:M : 'cV[rat]_1) 4%:M]
  /\ Markov.marginalise_sequence Examples.qr345
       (Markov.MkMarkovSequence ([:: 2%:M] ++ [:: 3%:M])
          ([:: Markov.MkNormal 1%:M 3%:M] ++ [:: Markov.MkNormal 2%:M 4%:M])
          (Markov.MkNormal 1%:M 4%:M) false)
     = Markov.marginalise_sequence Examples.qr345
         (Markov.MkMarkovSequence [:: 2%:M] [:: Markov.MkNormal 1%:M 3%:M]
            (Markov.MkNormal 1%:M 4%:M) false)
       ++ Markov.marginalise_sequence Examples.qr345
            (Markov.MkMarkovSequence [:: 3%:M] [:: Markov.MkNormal 2%:M 4%:M]
               (last (Markov.MkNormal 1%:M 4%:M)
                  (Markov.marginalise_sequence Examples.qr345
                     (Markov.MkMarkovSequence [:: 2%:M]
                        [:: Markov.MkNormal 1%:M 3%:M]
                        (Markov.MkNormal 1%:M 4%:M) false)))
               false).
Proof.
have eqsz : size [:: (2%:M : 'M[rat]_1)]
            = size [:: Markov.MkNormal (1%:M : 'cV[rat]_1) 3%:M] by [].
have eqsz2 : size [:: (3%:M : 'M[rat]_1)]
             = size [:: Markov.MkNormal (2%:M : 'cV[rat]_1) 4%:M] by [].
split; [by [] | split; [by [] |]].
exact: (@marginalise_sequence_cat_forward _ 1 Examples.qr345
          [:: 2%:M] [:: 3%:M] [:: Markov.MkNormal 1%:M 3%:M]
          [:: Markov.MkNormal 2%:M 4%:M] (Markov.MkNormal 1%:M 4%:M)
          eqsz eqsz2).
Defined.

Lemma marginalise_sequence_cat_reverse_witness :
  size [:: (2%:M : 'M[rat]_1)] = size [:: Markov.MkNormal (1%:M : 'cV[rat]_1) 3%:M]
  /\ size [:: (3%:M : 'M[rat]_1)]
     = size [:: Markov.MkNormal (2%:M : 'cV[rat]_1) 4%:M]
  /\ Markov.marginalise_sequence Examples.qr345
       (Markov.MkMarkovSequence ([:: 2%:M] ++ [:: 3%:M])
          ([:: Markov.MkNormal 1%:M 3%:M] ++ [:: Markov.MkNormal 2%:M 4%:M])
          (Markov.MkNormal 1%:M 4%:M) true)
     = Markov.marginalise_sequence Examples.qr345
         (Markov.MkMarkovSequence [:: 2%:M] [:: Markov.MkNormal 1%:M 3%:M]
            (head (Markov.MkNormal 1%:M 4%:M)
               (Markov.marginalise_sequence Examples.qr345
                  (Markov.MkMarkovSequence [:: 3%:M]
                     [:: Markov.MkNormal 2%:M 4%:M]
                     (Markov.MkNormal 1%:M 4%:M) true)))
            true)
       ++ Markov.marginalise_sequence Examples.qr345
            (Markov.MkMarkovSequence [:: 3%:M] [:: Markov.MkNormal 2%:M 4%:M]
               (Markov.MkNormal 1%:M 4%:M) true).
Proof.
have eqsz : size [:: (2%:M : 'M[rat]_1)]
            = size [:: Markov.MkNormal (1%:M : 'cV[rat]_1) 3%:M] by [].
have eqsz2 : size [:: (3%:M : 'M[rat]_1)]
             = size [:: Markov.MkNormal (2%:M : 'cV[rat]_1) 4%:M] by [].
split; [by [] | split; [by [] |]].
exact: (@marginalise_sequence_cat_reverse _ 1 Examples.qr345
          [:: 2%:M] [:: 3%:M] [:: Markov.MkNormal 1%:M 3%:M]
          [:: Markov.MkNormal 2%:M 4%:M] (Markov.MkNormal 1%:M 4%:M)
          eqsz eqsz2).
Defined.

Lemma marginalise_sequence_mean_independent_witness :
  size (Markov.transition_operators MoreExamples.seq_a)
  = size (Markov.transition_noise_rvs MoreExamples.seq_a)
  /\
  [/\ Markov.transition_operators MoreExamples.seq_a
      = Markov.transition_operators MoreExamples.seq_b,
      map (@Markov.mean _ 1) (Markov.transition_noise_rvs MoreExamples.seq_a)
      = map (@Markov.mean _ 1) (Markov.transition_noise_rvs MoreExamples.seq_b),
      Markov.mean (Markov.init MoreExamples.seq_a)
      = Markov.mean (Markov.init MoreExamples.seq_b),
      Markov.reverse MoreExamples.seq_a = Markov.reverse MoreExamples.seq_b
    & map (@Markov.mean _ 1)
        (Markov.marginalise_sequence Examples.qr345 MoreExamples.seq_a)
      = map (@Markov.mean _ 1)
          (Markov.marginalise_sequence MoreExamples.qr500 MoreExamples.seq_b)].
Proof.
split; first by [].
split; [by [] | by [] | by [] | by [] |].
exact: (@marginalise_sequence_mean_independent _ 1 Examples.qr345
          MoreExamples.qr500 MoreExamples.seq_a MoreExamples.seq_b
          (erefl _) (erefl _) (erefl _) (erefl _) (erefl _)).
Defined.

(** ** Backward models: marginalising and condensing *)

Section BackwardModelFacts.

Variable F : fieldType.
Variable qr_r : forall m n : nat, 'M[F]_(m, n) -> 'M[F]_n.
Variables n d : nat.

Local Notation IsotropicNormal := (Isotropic.IsotropicNormal F n d).
Local Notation BackwardModel := (Isotropic.BackwardModel F n d).
Local Notation cov := (@Sqrtm.cov F _ _).
Local Notation qr_ok := (@Sqrtm.qr_ok F qr_r _ _).
Local Notation condense := (@Isotropic.condense_backward_models F qr_r n d).
Local Notation marginalise := (@Isotropic.marginalise_model_isotropic F qr_r n d).
Local Notation mean := (@Isotropic.mean F n d).
Local Notation factor := (@Isotropic.cov_sqrtm_lower F n d).
Local Notation transition := (@Isotropic.transition F n d).
Local Notation noise := (@Isotropic.noise F n d).

(** X5.  Where the QR routine is right on the stack it receives,
    [marginalise_model_isotropic] returns mean [linop mean + noise mean] and
    a factor [L] with [L L^T = linop cov linop^T + noise cov]. *)
Theorem marginalise_model_isotropic_correct (init : IsotropicNormal)
    (linop : 'M[F]_n) (noise' : IsotropicNormal) :
  qr_ok (col_mx (linop *m factor init)^T (factor noise')^T) ->
  let out := marginalise init linop noise' in
  mean out = linop *m mean init + mean noise'
  /\ factor out *m (factor out)^T
     = linop *m (factor init *m (factor init)^T) *m linop^T
       + factor noise' *m (factor noise')^T.
Proof.
move=> ok out; split=> //.
by have := sum_of_sqrtm_factors_cov ok; rewrite cov_mul.
Qed.

(** The trivial backward model of the first node. *)
Local Notation bw_id :=
  (Isotropic.MkBackwardModel (Isotropic.init_backward_transition F n)
     (Isotropic.init_backward_noise F n d)).

(** X6.  The backward model of the first node, built by
    [init_backward_transition] and [init_backward_noise], is a unit of
    [condense_backward_models] on either side: the transition and the noise
    mean are those of the other model, and so is the noise covariance where
    the QR routine is right on the stack. *)
Theorem condense_backward_models_unit (x : BackwardModel) :
  qr_ok (Isotropic.condense_stack bw_id x) ->
  qr_ok (Isotropic.condense_stack x bw_id) ->
  let l := condense bw_id x in
  let r := condense x bw_id in
  [/\ l.2 = transition x /\ r.2 = transition x,
      mean l.1 = mean (noise x) /\ mean r.1 = mean (noise x)
    & factor l.1 *m (factor l.1)^T = factor (noise x) *m (factor (noise x))^T
      /\ factor r.1 *m (factor r.1)^T
         = factor (noise x) *m (factor (noise x))^T].
Proof.
move=> okl okr l r; split.
- by rewrite /l /r /= /Isotropic.init_backward_transition mul1mx mulmx1.
- rewrite /l /r /= /Isotropic.init_backward_transition.
  rewrite /Isotropic.init_backward_noise /=.
  by split; rewrite ?mul1mx ?mulmx0 ?addr0 ?add0r.
- have := condense_backward_models_cov okl.
  have := condense_backward_models_cov okr.
  rewrite /Sqrtm.cov /= /Isotropic.init_backward_transition.
  rewrite /Isotropic.init_backward_noise /= => -> ->.
  by split; rewrite ?mul1mx ?trmx1 ?mulmx1 ?trmx0 ?mulmx0 ?mul0mx ?addr0 ?add0r.
Qed.

(** X7.  Marginalising through the model that [condense_backward_models]
    returns gives the mean and the covariance of marginalising through
    [bw_state] and then through [bw_init], where the QR routine is right on
    the four stacks. *)
Theorem marginalise_condensed (rv : IsotropicNormal)
    (bw_init bw_state : BackwardModel) :
  let mid := marginalise rv (transition bw_state) (noise bw_state) in
  let two := marginalise mid (transition bw_init) (noise bw_init) in
  let c := condense bw_init bw_state in
  let one := marginalise rv c.2 c.1 in
  qr_ok (col_mx (transition bw_state *m factor rv)^T
           (factor (noise bw_state))^T) ->
  qr_ok (col_mx (transition bw_init *m factor mid)^T
           (factor (noise bw_init))^T) ->
  qr_ok (Isotropic.condense_stack bw_init bw_state) ->
  qr_ok (col_mx (c.2 *m factor rv)^T (factor c.1)^T) ->
  mean one = mean two
  /\ factor one *m (factor one)^T = factor two *m (factor two)^T.
Proof.
move=> mid two c one okmid oktwo okc okone; split.
  by rewrite /one /two /mid /c /= mulmxDr mulmxA addrA.
have := sum_of_sqrtm_factors_cov okone.
have := sum_of_sqrtm_factors_cov oktwo.
rewrite !cov_mul /Sqrtm.cov /one /two /= => -> ->.
have := sum_of_sqrtm_factors_cov okmid; rewrite cov_mul /Sqrtm.cov /mid /= => ->.
have := condense_backward_models_cov okc; rewrite /Sqrtm.cov /c /= => ->.
by rewrite trmx_mul mulmxDr mulmxDl !mulmxA addrA.
Qed.

End BackwardModelFacts.

Lemma marginalise_model_isotropic_correct_witness :
  Sqrtm.qr_ok Examples.qr345
    (col_mx
       ((1%:M : 'M[rat]_1) *m Isotropic.cov_sqrtm_lower MoreExamples.rv3)^T
       (Isotropic.cov_sqrtm_lower MoreExamples.noise4)^T)
  /\ let out := Isotropic.marginalise_model_isotropic Examples.qr345
                  MoreExamples.rv3 1%:M MoreExamples.noise4 in
     Isotropic.cov_sqrtm_lower out *m (Isotropic.cov_sqrtm_lower out)^T
     = 1%:M *m (3%:M *m 3%:M^T) *m 1%:M^T + 4%:M *m 4%:M^T.
Proof.
have ok : Sqrtm.qr_ok Examples.qr345
    (col_mx
       ((1%:M : 'M[rat]_1) *m Isotropic.cov_sqrtm_lower MoreExamples.rv3)^T
       (Isotropic.cov_sqrtm_lower MoreExamples.noise4)^T).
  rewrite /= mul1mx; scalar1.
  by apply: qr345_ok_stack; rewrite !mxE; apply/eqP.
split; first exact: ok.
have [_ covE] :=
  @marginalise_model_isotropic_correct _ Examples.qr345 1 1
    MoreExamples.rv3 1%:M MoreExamples.noise4 ok.
exact: covE.
Defined.

Lemma condense_backward_models_unit_witness :
  [/\ Sqrtm.qr_ok Examples.qr345
        (Isotropic.condense_stack MoreExamples.bw_trivial Examples.bw_y),
      Sqrtm.qr_ok Examples.qr345
        (Isotropic.condense_stack Examples.bw_y MoreExamples.bw_trivial)
    & let l := Isotropic.condense_backward_models Examples.qr345
                 MoreExamples.bw_trivial Examples.bw_y in
      let r := Isotropic.condense_backward_models Examples.qr345
                 Examples.bw_y MoreExamples.bw_trivial in
      Isotropic.cov_sqrtm_lower l.1 *m (Isotropic.cov_sqrtm_lower l.1)^T
      = 5%:M *m 5%:M^T
      /\ Isotropic.cov_sqrtm_lower r.1 *m (Isotropic.cov_sqrtm_lower r.1)^T
         = 5%:M *m 5%:M^T].
Proof.
have okl : Sqrtm.qr_ok Examples.qr345
    (Isotropic.condense_stack MoreExamples.bw_trivial Examples.bw_y).
  rewrite /Isotropic.condense_stack /MoreExamples.bw_trivial /=.
  rewrite /Isotropic.init_backward_transition /Isotropic.init_backward_noise.
  rewrite /= mul1mx; scalar1.
  by apply: qr345_ok_stack; rewrite !mxE; apply/eqP.
have okr : Sqrtm.qr_ok Examples.qr345
    (Isotropic.condense_stack Examples.bw_y MoreExamples.bw_trivial).
  rewrite /Isotropic.condense_stack /MoreExamples.bw_trivial /=.
  rewrite /Isotropic.init_backward_transition /Isotropic.init_backward_noise.
  rewrite /=; scalar1.
  by apply: qr345_ok_stack; rewrite !mxE; apply/eqP.
split; [exact: okl | exact: okr |].
have [_ _ covE] :=
  @condense_backward_models_unit _ Examples.qr345 1 1 Examples.bw_y okl okr.
exact: covE.
Defined.

Lemma marginalise_condensed_witness :
  let mid := Isotropic.marginalise_model_isotropic Examples.qr345
               MoreExamples.rv0 (Isotropic.transition Examples.bw_y)
               (Isotropic.noise Examples.bw_y) in
  let two := Isotropic.marginalise_model_isotropic Examples.qr345
               mid (Isotropic.transition Examples.bw_x)
               (Isotropic.noise Examples.bw_x) in
  let c := Isotropic.condense_backward_models Examples.qr345
             Examples.bw_x Examples.bw_y in
  let one := Isotropic.marginalise_model_isotropic Examples.qr345
               MoreExamples.rv0 c.2 c.1 in
  [/\ Sqrtm.qr_ok Examples.qr345
        (col_mx (Isotropic.transition Examples.bw_y
                   *m Isotropic.cov_sqrtm_lower MoreExamples.rv0)^T
           (Isotropic.cov_sqrtm_lower (Isotropic.noise Examples.bw_y))^T),
      Sqrtm.qr_ok Examples.qr345
        (col_mx (Isotropic.transition Examples.bw_x
                   *m Isotropic.cov_sqrtm_lower mid)^T
           (Isotropic.cov_sqrtm_lower (Isotropic.noise Examples.bw_x))^T),
      Sqrtm.qr_ok Examples.qr345
        (Isotropic.condense_stack Examples.bw_x Examples.bw_y),
      Sqrtm.qr_ok Examples.qr345
        (col_mx (c.2 *m Isotropic.cov_sqrtm_lower MoreExamples.rv0)^T
           (Isotropic.cov_sqrtm_lower c.1)^T)
    & Isotropic.mean one = Isotropic.mean two
      /\ Isotropic.cov_sqrtm_lower one *m (Isotropic.cov_sqrtm_lower one)^T
         = Isotropic.cov_sqrtm_lower two *m (Isotropic.cov_sqrtm_lower two)^T].
Proof.
move=> mid two c one.
have s05 : Sqrtm.sum_of_sqrtm_factors Examples.qr345
    (0 : 'M[rat]_1) (5%:M : 'M[rat]_1) = 5%:M.
  by apply: qr345_stack; rewrite !mxE; apply/eqP.
have s34 : Sqrtm.sum_of_sqrtm_factors Examples.qr345
    ((3 / 5 * 5)%:M : 'M[rat]_1) (4%:M : 'M[rat]_1) = 5%:M.
  by apply: qr345_stack; rewrite !mxE; apply/eqP.
have okmid : Sqrtm.qr_ok Examples.qr345
    (col_mx (Isotropic.transition Examples.bw_y
               *m Isotropic.cov_sqrtm_lower MoreExamples.rv0)^T
       (Isotropic.cov_sqrtm_lower (Isotropic.noise Examples.bw_y))^T).
  scalar1; by apply: qr345_ok_stack; rewrite !mxE; apply/eqP.
have oktwo : Sqrtm.qr_ok Examples.qr345
    (col_mx (Isotropic.transition Examples.bw_x
               *m Isotropic.cov_sqrtm_lower mid)^T
       (Isotropic.cov_sqrtm_lower (Isotropic.noise Examples.bw_x))^T).
  rewrite /mid; scalar1; rewrite s05; scalar1.
  by apply: qr345_ok_stack; rewrite !mxE; apply/eqP.
have okc : Sqrtm.qr_ok Examples.qr345
    (Isotropic.condense_stack Examples.bw_x Examples.bw_y).
  rewrite /Isotropic.condense_stack; scalar1.
  by apply: qr345_ok_stack; rewrite !mxE; apply/eqP.
have okone : Sqrtm.qr_ok Examples.qr345
    (col_mx (c.2 *m Isotropic.cov_sqrtm_lower MoreExamples.rv0)^T
       (Isotropic.cov_sqrtm_lower c.1)^T).
  rewrite /c; scalar1; rewrite s34; scalar1.
  by apply: qr345_ok_stack; rewrite !mxE; apply/eqP.
split; [exact: okmid | exact: oktwo | exact: okc | exact: okone |].
exact: (@marginalise_condensed _ Examples.qr345 1 1 MoreExamples.rv0
          Examples.bw_x Examples.bw_y okmid oktwo okc okone).
Defined.

(** ** Reverting the extrapolation *)

Section RevertKernelFacts.

Variable F : fieldType.
Variable qr_r : forall m n : nat, 'M[F]_(m, n) -> 'M[F]_n.
Variables n d : nat.
Variable self : Isotropic.IsotropicImplementation F n.
Variables (m0 : 'M[F]_(n, d)) (l0 : 'M[F]_n).
Variables p p_inv : 'rV[F]_n.
Variable diffusion_sqrtm : F.
Hypothesis p_inverse : forall i, p 0 i * p_inv 0 i = 1.

Local Notation P := (diag_mx p).
Local Notation Pi := (diag_mx p_inv).
Local Notation cov := (@Sqrtm.cov F _ _).
Local Notation A := (Isotropic.a self).
Local Notation Q := (Isotropic.q_sqrtm_lower self).
Local Notation S :=
  (Isotropic.physical_marginal_cov self l0 p p_inv diffusion_sqrtm).
Local Notation l0_p := (Pi *m l0).
Local Notation S_p :=
  (Sqrtm.gram (diffusion_sqrtm *: Q)^T + Sqrtm.gram (A *m l0_p)^T).
Local Notation K_p := (l0_p^T^T *m (A *m l0_p)^T *m invmx S_p).
Local Notation em := (Isotropic.extrapolate_mean self m0 p p_inv).

(** What [revert_markov_kernel] returns after [extrapolate_mean], in terms of
    the preconditioned gain [K_p]. *)
Lemma revert_markov_kernel_outputs :
  Sqrtm.qr_ok qr_r
    (Isotropic.extrapolation_joint self l0 p_inv diffusion_sqrtm) ->
  S \in unitmx ->
  exists R_ext R_cor,
    [/\ Isotropic.revert_markov_kernel qr_r self em.1.1 l0 p p_inv
          diffusion_sqrtm em.2 em.1.2
        = Some (Isotropic.MkNormal em.1.1 (P *m R_ext^T),
                (Isotropic.MkNormal (P *m (em.2 - K_p *m em.1.2))
                   (P *m R_cor^T),
                 P *m K_p *m Pi)),
        Sqrtm.gram R_cor = Sqrtm.gram l0_p^T - K_p *m S_p *m K_p^T,
        cov (P *m R_ext^T) = S,
        P *m (em.2 - K_p *m em.1.2) = m0 - P *m K_p *m Pi *m em.1.1
      & cov (P *m R_cor^T)
        = cov l0 - P *m K_p *m Pi *m S *m (P *m K_p *m Pi)^T].
Proof.
move=> okJ Sunit.
have Spunit := marginal_cov_unit Sunit.
have [R_ext [R_cor [rev eS eC]]] := revert_conditional_correct okJ Spunit.
have SE := marginal_cov_unapply self l0 p p_inv diffusion_sqrtm.
exists R_ext, R_cor.
have rmk : Isotropic.revert_markov_kernel qr_r self em.1.1 l0 p p_inv
      diffusion_sqrtm em.2 em.1.2
    = Some (Isotropic.MkNormal em.1.1 (P *m R_ext^T),
            (Isotropic.MkNormal (P *m (em.2 - K_p *m em.1.2)) (P *m R_cor^T),
             P *m K_p *m Pi)).
  by rewrite /Isotropic.revert_markov_kernel rev.
move: rmk rev eS eC SE; set Sp := S_p; set Kp := K_p => rmk rev eS eC SE.
clearbody Sp Kp; split=> //.
- by rewrite (cov_unapply p) cov_tr eS SE.
- rewrite mulmxBr /= (unapplyK p_inverse).
  by rewrite -!mulmxA (applyK p_inverse).
- rewrite (cov_unapply p) cov_tr eC gram_tr (cov_apply p_inv).
  rewrite mulmxBr mulmxBl !mulmxA (precondition_unapply p_inverse) mul1mx.
  rewrite (unapplyKr p_inverse) SE.
  rewrite !trmx_mul !tr_diag_mx !mulmxA (unapplyKr p_inverse).
  by rewrite -[_ *m P *m Pi]mulmxA (precondition_unapply p_inverse) mulmx1.
Qed.

(** X8.  Extrapolating a state, reverting the kernel and marginalising the
    extrapolated state through the backward model returns the mean and the
    covariance the step started from, where the preconditioner is inverted
    entrywise, the QR routine is right and the marginal covariance is
    invertible. *)
Theorem revert_then_marginalise
    (extrapolated bw_noise : Isotropic.IsotropicNormal F n d)
    (bw_op : 'M[F]_n) :
  Isotropic.revert_markov_kernel qr_r self em.1.1 l0 p p_inv
    diffusion_sqrtm em.2 em.1.2
  = Some (extrapolated, (bw_noise, bw_op)) ->
  Sqrtm.qr_ok qr_r
    (Isotropic.extrapolation_joint self l0 p_inv diffusion_sqrtm) ->
  S \in unitmx ->
  Sqrtm.qr_ok qr_r
    (col_mx (bw_op *m Isotropic.cov_sqrtm_lower extrapolated)^T
            (Isotropic.cov_sqrtm_lower bw_noise)^T) ->
  let back :=
    Isotropic.marginalise_model_isotropic qr_r extrapolated bw_op bw_noise in
  Isotropic.mean back = m0
  /\ Isotropic.cov_sqrtm_lower back *m (Isotropic.cov_sqrtm_lower back)^T
     = l0 *m l0^T.
Proof.
move=> rmk okJ Sunit.
have [R_ext [R_cor [rmkE _ cE mE cB]]] := revert_markov_kernel_outputs okJ Sunit.
rewrite rmkE in rmk.
move: rmk cE mE cB; set Kp := K_p => rmk cE mE cB; clearbody Kp.
case: rmk => <- <- <- okB back; split.
  by rewrite /back /= mE addrC subrK.
have := sum_of_sqrtm_factors_cov okB.
rewrite /back /= cov_mul cE cB /Sqrtm.cov => ->.
by rewrite addrC subrK.
Qed.

End RevertKernelFacts.

Lemma revert_then_marginalise_witness :
  [/\ forall i, MoreExamples.precon5 0 i * MoreExamples.precon5_inv 0 i = 1,
      Sqrtm.qr_ok Examples.qr345
        (Isotropic.extrapolation_joint Examples.impl 5%:M
           MoreExamples.precon5_inv 3),
      Isotropic.physical_marginal_cov Examples.impl 5%:M MoreExamples.precon5
        MoreExamples.precon5_inv 3 \in unitmx
    & let em := Isotropic.extrapolate_mean Examples.impl (1%:M : 'M[rat]_1)
                  MoreExamples.precon5 MoreExamples.precon5_inv in
      exists extrapolated bw_noise bw_op,
        [/\ Isotropic.revert_markov_kernel Examples.qr345 Examples.impl
              em.1.1 5%:M MoreExamples.precon5 MoreExamples.precon5_inv 3
              em.2 em.1.2
            = Some (extrapolated, (bw_noise, bw_op)),
            Sqrtm.qr_ok Examples.qr345
              (col_mx (bw_op *m Isotropic.cov_sqrtm_lower extrapolated)^T
                 (Isotropic.cov_sqrtm_lower bw_noise)^T)
          & let back := Isotropic.marginalise_model_isotropic Examples.qr345
                          extrapolated bw_op bw_noise in
            Isotropic.mean back = 1%:M
            /\ Isotropic.cov_sqrtm_lower back
                 *m (Isotropic.cov_sqrtm_lower back)^T
               = 5%:M *m 5%:M^T]].
Proof.
have pK : forall i,
    MoreExamples.precon5 0 i * MoreExamples.precon5_inv 0 i = 1.
  by move=> i; rewrite !mxE !ord1 /=; apply/eqP.
have okJ : Sqrtm.qr_ok Examples.qr345
    (Isotropic.extrapolation_joint Examples.impl 5%:M
       MoreExamples.precon5_inv 3).
  rewrite /Isotropic.extrapolation_joint /MoreExamples.precon5_inv; scalar1.
  by apply: qr345_ok_joint; apply/eqP.
have Sunit : Isotropic.physical_marginal_cov Examples.impl 5%:M
    MoreExamples.precon5 MoreExamples.precon5_inv 3 \in unitmx.
  rewrite /Isotropic.physical_marginal_cov /Isotropic.physical_transition.
  rewrite /Isotropic.physical_noise_sqrtm /Sqrtm.cov.
  rewrite /MoreExamples.precon5 /MoreExamples.precon5_inv; scalar1.
  by rewrite -raddfD /=; exact: scalar_mx_unit.
split; [exact: pK | exact: okJ | exact: Sunit |].
move=> em.
have [R_ext [R_cor [rmkE _ cE _ cB]]] :=
  revert_markov_kernel_outputs (1%:M : 'M[rat]_1) pK okJ Sunit.
move: rmkE cE cB; set ext := Isotropic.MkNormal _ _.
set bwn := Isotropic.MkNormal _ _; set g := (_ *m _ *m _) => rmkE cE cB.
have okB : Sqrtm.qr_ok Examples.qr345
    (col_mx (g *m Isotropic.cov_sqrtm_lower ext)^T
       (Isotropic.cov_sqrtm_lower bwn)^T).
  apply: qr345_ok_col; rewrite gram_col_mx !gram_tr cov_mul /= cE cB.
  rewrite addrC subrK /Sqrtm.cov; scalar1.
  by congr (_%:M); apply/eqP.
exists ext, bwn, g; split; [exact: rmkE | exact: okB |].
exact: (@revert_then_marginalise _ Examples.qr345 1 1 Examples.impl 1%:M
          5%:M MoreExamples.precon5 MoreExamples.precon5_inv 3 pK
          ext bwn g rmkE okJ Sunit okB).
Defined.

(** ** The first step, from an exactly known state *)

Section InitialStep.

Variable F : realFieldType.
Variable qr_r : forall m n : nat, 'M[F]_(m, n) -> 'M[F]_n.

(** Over an ordered field a factor with zero Gram matrix is zero. *)
Lemma gram_eq0 m n (R : 'M[F]_(m, n)) : Sqrtm.gram R = 0 -> R = 0.
Proof.
move=> g0; apply/matrixP => i j; rewrite [RHS]mxE.
have /eqP : Sqrtm.gram R j j = 0 by rewrite g0 mxE.
rewrite /Sqrtm.gram mxE psumr_eq0 => [k _|]; first by rewrite mxE -expr2 sqr_ge0.
by move/allP/(_ i); rewrite mem_index_enum mxE -expr2 sqrf_eq0 => /(_ isT)/eqP.
Qed.

Variables n d : nat.
Variable self : Isotropic.IsotropicImplementation F n.
Variable taylor_coefficients : 'M[F]_(n, d).
Variables p p_inv : 'rV[F]_n.
Variable diffusion_sqrtm : F.
Hypothesis p_inverse : forall i, p 0 i * p_inv 0 i = 1.

Local Notation init := (Isotropic.init_corrected taylor_coefficients).
Local Notation l0 := (Isotropic.cov_sqrtm_lower init).
Local Notation em :=
  (Isotropic.extrapolate_mean self (Isotropic.mean init) p p_inv).
Local Notation noise_cov :=
  ((diffusion_sqrtm * diffusion_sqrtm)
     *: Sqrtm.cov (Isotropic.physical_noise_sqrtm self p)).

Lemma physical_marginal_cov_init :
  Isotropic.physical_marginal_cov self l0 p p_inv diffusion_sqrtm = noise_cov.
Proof.
rewrite /Isotropic.physical_marginal_cov /Isotropic.init_corrected /=.
by rewrite {1}/Sqrtm.cov trmx0 !mulmx0 mul0mx add0r.
Qed.

(** X9.  From the state that [init_corrected] builds, whose factor is zero,
    the extrapolated covariance is the scaled process-noise covariance, and
    [revert_markov_kernel] returns the zero gain and a backward noise with
    the Taylor coefficients as mean and a zero factor. *)
Theorem revert_from_initial_condition :
  Sqrtm.qr_ok qr_r
    (Isotropic.extrapolation_stack self l0 p_inv diffusion_sqrtm) ->
  Sqrtm.qr_ok qr_r
    (Isotropic.extrapolation_joint self l0 p_inv diffusion_sqrtm) ->
  noise_cov \in unitmx ->
  Sqrtm.cov
    (Isotropic.cov_sqrtm_lower
       (Isotropic.complete_extrapolation qr_r self em.1.1 l0 p_inv p
          diffusion_sqrtm)) = noise_cov
  /\ exists extrapolated bw_noise,
       [/\ Isotropic.revert_markov_kernel qr_r self em.1.1 l0 p p_inv
             diffusion_sqrtm em.2 em.1.2
           = Some (extrapolated, (bw_noise, 0)),
           Sqrtm.cov (Isotropic.cov_sqrtm_lower extrapolated) = noise_cov,
           Isotropic.mean bw_noise = taylor_coefficients
         & Isotropic.cov_sqrtm_lower bw_noise = 0].
Proof.
move=> okS okJ; rewrite -physical_marginal_cov_init => Sunit; split.
  exact: complete_extrapolation_cov.
have [R_ext [R_cor [rmk gC cE mE _]]] :=
  revert_markov_kernel_outputs taylor_coefficients p_inverse okJ Sunit.
have K0 : (diag_mx p_inv *m l0)^T^T
            *m (Isotropic.a self *m (diag_mx p_inv *m l0))^T
            *m invmx (Sqrtm.gram (diffusion_sqrtm *: Isotropic.q_sqrtm_lower self)^T
                      + Sqrtm.gram (Isotropic.a self *m (diag_mx p_inv *m l0))^T)
          = 0.
  by rewrite /Isotropic.init_corrected /= mulmx0 !trmx0 !mul0mx.
move: rmk gC mE; rewrite K0 => rmk gC mE.
have R0 : R_cor = 0.
  apply: gram_eq0; rewrite gC /Isotropic.init_corrected /= mulmx0 trmx0.
  by rewrite /Sqrtm.gram !mul0mx mulmx0 subr0.
exists (Isotropic.MkNormal em.1.1 (diag_mx p *m R_ext^T)).
exists (Isotropic.MkNormal taylor_coefficients 0).
split=> //.
by rewrite rmk mE R0 trmx0 !mulmx0 !mul0mx subr0.
Qed.

End InitialStep.

Section MoreExampleFacts.
Import MoreExamples.

Lemma qr500_col m (M : 'M[rat]_(m, 1)) : M != 0 -> qr500 M = 5%:M.
Proof.
move=> M0; rewrite /qr500 (negPf M0).
by apply/matrixP => i j; rewrite !mxE !ord1.
Qed.

Lemma qr500_ok_col m (M : 'M[rat]_(m, 1)) :
  Sqrtm.gram M = 25%:M -> Sqrtm.qr_ok qr500 M.
Proof.
move=> gM; have M0 : M != 0.
  by apply: contra_eq_neq gM => ->; rewrite gram0 eq_sym scalar_mx1_neq0.
rewrite /Sqrtm.qr_ok /Sqrtm.r_factor_of (qr500_col M0) gM.
rewrite gram_scalar1 /Sqrtm.upper_triangular tr_scalar_mx scalar_mx_is_trig.
by rewrite andbT; apply/eqP; congr (_%:M).
Qed.

Lemma qr500_joint :
  qr500 (Sqrtm.joint_blocks (0 : 'M_1) (0 : 'M_1) (5%:M : 'M_1))
  = block_mx 5%:M 0 0 0.
Proof.
set J := Sqrtm.joint_blocks _ _ _; have J0 : J != 0.
  apply/eqP => /matrixP/(_ (lshift 1 0) (lshift 1 0)).
  by rewrite /J /Sqrtm.joint_blocks block_mxEul !mxE.
rewrite /qr500 (negPf J0).
apply/matrixP => i j; rewrite [LHS]mxE.
case: (@split_ordP 1 1 i) => i' ->; case: (@split_ordP 1 1 j) => j' ->;
  by rewrite ?block_mxEul ?block_mxEur ?block_mxEdl ?block_mxEdr !mxE !ord1.
Qed.

Lemma qr500_ok_joint :
  Sqrtm.qr_ok qr500
    (Sqrtm.joint_blocks (0 : 'M_1) (0 : 'M_1) (5%:M : 'M_1)).
Proof.
rewrite /Sqrtm.qr_ok /Sqrtm.r_factor_of qr500_joint.
rewrite /Sqrtm.joint_blocks eqxx /=.
rewrite /Sqrtm.upper_triangular tr_block_mx is_trig_block_mx //.
rewrite !trmx0 eqxx tr_scalar_mx scalar_mx_is_trig /=.
by apply/is_trig_mxP => i j _; rewrite mxE.
Qed.

End MoreExampleFacts.

Lemma revert_from_initial_condition_witness :
  let l0 := Isotropic.cov_sqrtm_lower
              (Isotropic.init_corrected (1%:M : 'M[rat]_1)) in
  let em := Isotropic.extrapolate_mean Examples.impl
              (Isotropic.mean (Isotropic.init_corrected (1%:M : 'M[rat]_1)))
              Examples.precon Examples.precon_inv in
  [/\ forall i, Examples.precon 0 i * Examples.precon_inv 0 i = 1,
      Sqrtm.qr_ok MoreExamples.qr500
        (Isotropic.extrapolation_stack Examples.impl l0 Examples.precon_inv 5),
      Sqrtm.qr_ok MoreExamples.qr500
        (Isotropic.extrapolation_joint Examples.impl l0 Examples.precon_inv 5),
      (5 * 5) *: Sqrtm.cov
                   (Isotropic.physical_noise_sqrtm Examples.impl Examples.precon)
        \in unitmx
    & exists extrapolated bw_noise,
        [/\ Isotropic.revert_markov_kernel MoreExamples.qr500 Examples.impl
              em.1.1 l0 Examples.precon Examples.precon_inv 5 em.2 em.1.2
            = Some (extrapolated, (bw_noise, 0)),
            Isotropic.mean bw_noise = 1%:M
          & Isotropic.cov_sqrtm_lower bw_noise = 0]].
Proof.
move=> l0 em.
have pK : forall i, Examples.precon 0 i * Examples.precon_inv 0 i = 1.
  by move=> i; rewrite !mxE !ord1 /=; apply/eqP.
have okS : Sqrtm.qr_ok MoreExamples.qr500
    (Isotropic.extrapolation_stack Examples.impl l0 Examples.precon_inv 5).
  rewrite /Isotropic.extrapolation_stack /l0 /Isotropic.init_corrected.
  scalar1; rewrite mulr1.
  apply: qr500_ok_col; rewrite gram_col_mx gram0 add0r gram_scalar1.
  by congr (_%:M); apply/eqP.
have okJ : Sqrtm.qr_ok MoreExamples.qr500
    (Isotropic.extrapolation_joint Examples.impl l0 Examples.precon_inv 5).
  rewrite /Isotropic.extrapolation_joint /l0 /Isotropic.init_corrected.
  by scalar1; rewrite mulr1; exact: qr500_ok_joint.
have Sunit : (5 * 5) *: Sqrtm.cov
      (Isotropic.physical_noise_sqrtm Examples.impl Examples.precon)
    \in unitmx.
  rewrite /Isotropic.physical_noise_sqrtm /Sqrtm.cov /Examples.precon.
  by scalar1; exact: scalar_mx_unit.
split; [exact: pK | exact: okS | exact: okJ | exact: Sunit |].
have [_ [extrapolated [bw_noise [rmk _ mE fE]]]] :=
  @revert_from_initial_condition _ MoreExamples.qr500 1 1 Examples.impl
    1%:M Examples.precon Examples.precon_inv 5 pK okS okJ Sunit.
by exists extrapolated, bw_noise; split.
Defined.

(** ** The correction against a linear observation *)

Section LinearCorrection.

Variable F : fieldType.
Variables n d : nat.
Variable extrapolated : Isotropic.IsotropicNormal F n d.
Variable h : 'rV[F]_n.
Variable m_obs : 'rV[F]_d.

Local Notation m_ext := (Isotropic.mean extrapolated).
Local Notation l_ext := (Isotropic.cov_sqrtm_lower extrapolated).
Local Notation l_obs := (h *m l_ext).
Local Notation c_obs := ((l_obs *m l_obs^T) 0 0).
Local Notation g := (c_obs^-1 *: (l_ext *m l_obs^T)).

Lemma final_correction_linearE :
  c_obs != 0 ->
  Isotropic.final_correction extrapolated (mulmx h) m_obs
  = Some (Isotropic.MkNormal (m_ext - g *m m_obs) (l_ext - g *m l_obs)).
Proof. by move=> c0; rewrite /Isotropic.final_correction divide_by_some. Qed.

Lemma gain_observed : c_obs != 0 -> h *m g = 1%:M.
Proof.
move: (mx11_scalar (l_obs *m l_obs^T)); set c := c_obs => cE c0.
by rewrite -scalemxAr mulmxA cE scale_scalar_mx mulVf.
Qed.

(** X10.  For a linear observation [linear_fn = h @ .] with non-zero
    [c_obs], the state that [final_correction] returns satisfies the
    observation exactly: [h] annihilates its factor, and [h] applied to its
    mean is the observed mean shifted by [m_obs]. *)
Theorem final_correction_observed (corrected : Isotropic.IsotropicNormal F n d) :
  c_obs != 0 ->
  Isotropic.final_correction extrapolated (mulmx h) m_obs = Some corrected ->
  h *m Isotropic.cov_sqrtm_lower corrected = 0
  /\ h *m Isotropic.mean corrected = h *m m_ext - m_obs.
Proof.
move=> c0; rewrite (final_correction_linearE c0) => -[<-] /=.
by rewrite !mulmxBr !mulmxA (gain_observed c0) !mul1mx subrr.
Qed.


End LinearCorrection.

Section CorrectionShrinks.

Variable F : realFieldType.
Variables n d : nat.

(** X12.  Over an ordered field, whenever [final_correction] returns a
    state, no marginal variance of it exceeds the one before the correction,
    for any observation function. *)
Theorem final_correction_shrinks
    (extrapolated corrected : Isotropic.IsotropicNormal F n d)
    (linear_fn : 'M[F]_n -> 'rV[F]_n) (m_obs : 'rV[F]_d) (i : 'I_n) :
  Isotropic.final_correction extrapolated linear_fn m_obs = Some corrected ->
  Sqrtm.cov (Isotropic.cov_sqrtm_lower corrected) i i
  <= Sqrtm.cov (Isotropic.cov_sqrtm_lower extrapolated) i i.
Proof.
rewrite /Isotropic.final_correction /Isotropic.divide_by.
set l_ext := Isotropic.cov_sqrtm_lower extrapolated.
set l_obs := linear_fn l_ext; set c_obs := (l_obs *m l_obs^T) 0 0.
case: ifPn => // c0 [<-] /=.
have gE : l_ext *m l_obs^T = c_obs *: (c_obs^-1 *: (l_ext *m l_obs^T)).
  by rewrite scalerA divff // scale1r.
rewrite (cov_rank_one_update (mx11_scalar _) gE).
rewrite !mxE lerBlDr lerDl mulr_ge0 //.
  by apply: sumr_ge0 => j _; rewrite mxE -expr2 sqr_ge0.
by apply: sumr_ge0 => j _; rewrite [in X in _ * X]mxE -expr2 sqr_ge0.
Qed.

End CorrectionShrinks.

Section CorrectionExample.
Import MoreExamples.

Lemma c_obs_rv2 :
  (((1%:M : 'rV[rat]_1) *m Isotropic.cov_sqrtm_lower rv2)
     *m ((1%:M : 'rV[rat]_1) *m Isotropic.cov_sqrtm_lower rv2)^T) 0 0 != 0.
Proof. by rewrite /= mul1mx; scalar1; rewrite mxE. Qed.

End CorrectionExample.

Lemma final_correction_observed_witness :
  exists corrected,
    [/\ (((1%:M : 'rV[rat]_1) *m Isotropic.cov_sqrtm_lower MoreExamples.rv2)
           *m ((1%:M : 'rV[rat]_1)
                 *m Isotropic.cov_sqrtm_lower MoreExamples.rv2)^T) 0 0 != 0,
        Isotropic.final_correction MoreExamples.rv2 (mulmx 1%:M)
          (3%:M : 'rV[rat]_1) = Some corrected
      & (1%:M : 'rV[rat]_1) *m Isotropic.cov_sqrtm_lower corrected = 0
        /\ (1%:M : 'rV[rat]_1) *m Isotropic.mean corrected
           = 1%:M *m Isotropic.mean MoreExamples.rv2 - 3%:M].
Proof.
have fc := @final_correction_linearE _ 1 1 MoreExamples.rv2 1%:M 3%:M c_obs_rv2.
eexists; split; [exact: c_obs_rv2 | exact: fc |].
exact: (final_correction_observed c_obs_rv2 fc).
Defined.


Lemma final_correction_shrinks_witness :
  exists corrected,
    Isotropic.final_correction MoreExamples.rv2 (mulmx 1%:M)
      (3%:M : 'rV[rat]_1) = Some corrected
    /\ Sqrtm.cov (Isotropic.cov_sqrtm_lower corrected) 0 0
       <= Sqrtm.cov (Isotropic.cov_sqrtm_lower MoreExamples.rv2) 0 0.
Proof.
have fc := @final_correction_linearE _ 1 1 MoreExamples.rv2 1%:M 3%:M c_obs_rv2.
eexists; split; first exact: fc.
exact: (final_correction_shrinks 0 fc).
Defined.

(** ** The backward pass *)

Section BackwardPass.

Variable F : fieldType.
Variable qr_r : forall m n : nat, 'M[F]_(m, n) -> 'M[F]_n.
Variables n d : nat.

Local Notation IsotropicNormal := (Isotropic.IsotropicNormal F n d).
Local Notation BackwardModel := (Isotropic.BackwardModel F n d).
Local Notation marginalise_backwards := (Isotropic.marginalise_backwards qr_r).
Local Notation step :=
  (fun (c : IsotropicNormal) (x : BackwardModel) =>
     Isotropic.marginalise_model_isotropic qr_r c
       (Isotropic.transition x) (Isotropic.noise x)).

Lemma marginalise_backwardsE (init : IsotropicNormal)
    (backward_model : seq BackwardModel) :
  marginalise_backwards init backward_model
  = rcons
      (rev (Markov.scan (fun c x => (step c x, step c x)) init
              (rev (behead backward_model))).2)
      init.
Proof.
rewrite /Isotropic.marginalise_backwards /Isotropic.scan_with_init.
rewrite /Markov.scan_dir.
by case: (Markov.scan _ init (rev (behead backward_model))).
Qed.

(** X13.  The backward recursion of [marginalise_backwards]: the marginal
    at a node is the marginal at the next node pushed through the backward
    model stored at that next node; the model stored first only shifts the
    indices. *)
Theorem marginalise_backwards_cons (init : IsotropicNormal)
    (bw0 bw1 : BackwardModel) (rest : seq BackwardModel) :
  let later := marginalise_backwards init (bw1 :: rest) in
  marginalise_backwards init (bw0 :: bw1 :: rest)
  = Isotropic.marginalise_model_isotropic qr_r (head init later)
      (Isotropic.transition bw1) (Isotropic.noise bw1) :: later.
Proof.
move=> later; rewrite /later !marginalise_backwardsE /= rev_cons -[rcons (rev rest) bw1]cats1.
rewrite scan_cat /= scan_carry_last.
case: (Markov.scan _ init (rev rest)) => c o /=.
rewrite rev_cat /=; congr (_ :: _).
by case/lastP: o => [|o y] //; rewrite rev_rcons last_rcons.
Qed.

(** X14.  [marginalise_backwards] returns one marginal per stored backward
    model (one for an empty store), and the last of them is [init]. *)
Theorem marginalise_backwards_nodes (init : IsotropicNormal)
    (backward_model : seq BackwardModel) :
  size (marginalise_backwards init backward_model)
  = (size backward_model).-1.+1
  /\ last init (marginalise_backwards init backward_model) = init.
Proof.
rewrite marginalise_backwardsE size_rcons size_rev size_scan size_rev.
by rewrite size_behead last_rcons.
Qed.

End BackwardPass.

(** ** The size of the error estimate *)

Section ErrorEstimateSize.

Variable F : realFieldType.
Variable qr_r : forall m n : nat, 'M[F]_(m, n) -> 'M[F]_n.
Variable sqrt : F -> F.
Variables n d : nat.
Variable self : Isotropic.IsotropicImplementation F n.
Variable linear_fn : 'M[F]_n -> 'rV[F]_n.
Variables (m_obs : 'rV[F]_d) (p : 'rV[F]_n).

Local Notation l_obs_raw :=
  (linear_fn (diag_mx p *m Isotropic.q_sqrtm_lower self)).
Local Notation l_obs := (Sqrtm.sqrtm_to_cholesky qr_r l_obs_raw^T 0 0).
Local Notation res_white := ((sqrt d%:R)^-1 *: (l_obs^-1 *: m_obs)).

Lemma whiten_unit (s l c : F) :
  s != 0 -> l != 0 -> s ^+ 2 = c -> (s^-1 * l^-1) ^+ 2 * (l ^+ 2 * c) = 1.
Proof.
move=> s0 l0 <-; rewrite -!exprMn.
have -> : s^-1 * l^-1 * (l * s) = 1.
  by rewrite mulrA -[_ * l]mulrA mulVf // mulr1 mulVf.
by rewrite expr1n.
Qed.

(** X15.  Where the QR routine is right, the observation noise is non-zero,
    the residual has [d > 0] entries and [sqrt] squares back to [d],
    [estimate_error] returns an error estimate whose square times [d] is the
    squared norm of [m_obs], and a diffusion whose square times the
    observation-noise variance times [d] is that squared norm. *)
Theorem estimate_error_rms :
  Sqrtm.qr_ok qr_r l_obs_raw^T ->
  Sqrtm.qr_ok qr_r res_white^T ->
  l_obs_raw != 0 ->
  (0 < d)%N ->
  sqrt d%:R ^+ 2 = d%:R ->
  exists diffusion_sqrtm error_estimate,
    [/\ Isotropic.estimate_error qr_r sqrt self linear_fn m_obs p
        = Some (diffusion_sqrtm, error_estimate),
        error_estimate ^+ 2 * d%:R = (m_obs *m m_obs^T) 0 0
      & diffusion_sqrtm ^+ 2 * (l_obs_raw *m l_obs_raw^T) 0 0 * d%:R
        = (m_obs *m m_obs^T) 0 0].
Proof.
move=> okl okw raw0 d0 sqd.
have l0 : l_obs != 0 by rewrite (sqrtm_to_cholesky_col_eq0 okl).
have s0 : sqrt d%:R != 0.
  have : sqrt d%:R ^+ 2 != 0 by rewrite sqd pnatr_eq0 -lt0n.
  by rewrite expf_eq0.
have lsq := sqrtm_to_cholesky_col_sq okl.
have dsq := sqrtm_to_cholesky_col_sq okw.
exists (Sqrtm.sqrtm_to_cholesky qr_r res_white^T 0 0).
exists (Sqrtm.sqrtm_to_cholesky qr_r res_white^T 0 0 * l_obs).
have wE : (res_white *m res_white^T) 0 0
          = ((sqrt d%:R)^-1 * l_obs^-1) ^+ 2 * (m_obs *m m_obs^T) 0 0.
  rewrite !scalerA linearZ /= -scalemxAl -scalemxAr scalerA mxE.
  by rewrite expr2.
have unit2 := whiten_unit s0 l0 sqd.
have mE (k l2 c m : F) : k * (l2 * c) = 1 -> k * m * l2 * c = m.
  move=> u; have -> : k * m * l2 * c = m * (k * (l2 * c)).
    by rewrite [k * m]mulrC !mulrA.
  by rewrite u mulr1.
split.
- by rewrite /Isotropic.estimate_error divide_by_some // divide_by_some.
- by rewrite exprMn dsq wE; exact: mE.
- by rewrite dsq wE -lsq; exact: mE.
Qed.

End ErrorEstimateSize.

(** ** The solution read off a state *)

Section ExtractSolFacts.

Variable F : fieldType.
Variable qr_r : forall m n : nat, 'M[F]_(m, n) -> 'M[F]_n.
Variables n d : nat.
Variable rv : Isotropic.IsotropicNormal F n.+1 d.

Local Notation L := (Isotropic.cov_sqrtm_lower rv).
Local Notation l_square :=
  (IsotropicSolution.cov_sqrtm_lower (IsotropicSolution.extract_sol qr_r rv)).

(** X16.  [extract_sol] hands the first row of the factor to
    [sqrtm_to_cholesky] as a matrix with one row, so the scalar it returns
    squares to the square of the entry [L[0, 0]]; that is the marginal
    variance [(L L^T)[0, 0]] where [L] is lower triangular. *)
Theorem extract_sol_factor :
  Sqrtm.qr_ok qr_r (row 0 L) ->
  l_square ^+ 2 = L 0 0 ^+ 2
  /\ (is_trig_mx L -> l_square ^+ 2 = (L *m L^T) 0 0).
Proof.
move=> ok.
have lE : l_square ^+ 2 = L 0 0 ^+ 2.
  have up : forall i j : 'I_n.+1, (i < j)%N -> (qr_r (row 0 L))^T i j = 0.
    by apply/is_trig_mxP; exact: qr_ok_upper.
  have sumE : \sum_k (qr_r (row 0 L)) k 0 * (qr_r (row 0 L)) k 0
              = (qr_r (row 0 L)) 0 0 ^+ 2.
    rewrite big_ord_recl big1 ?addr0 ?expr2 // => k _.
    by move: (up 0 (lift 0 k) isT); rewrite !mxE => ->; rewrite mulr0.
  have := qr_ok_gram ok; move/matrixP/(_ 0 0).
  rewrite /Sqrtm.gram [RHS]mxE big_ord1 [LHS]mxE.
  under eq_bigr do rewrite mxE.
  by rewrite sumE /= /Sqrtm.sqrtm_to_cholesky !mxE -expr2.
split=> // trigL.
have low : forall i j : 'I_n.+1, (i < j)%N -> L i j = 0 by apply/is_trig_mxP.
have -> : (L *m L^T) 0 0 = L 0 0 ^+ 2.
  rewrite mxE big_ord_recl big1 ?addr0 ?mxE ?expr2 // => k _.
  by rewrite (low 0 (lift 0 k) isT) mul0r.
exact: lE.
Qed.

End ExtractSolFacts.

Lemma estimate_error_rms_witness :
  [/\ Sqrtm.qr_ok Examples.qr345
        (Examples.first_row
           (diag_mx Examples.unit_scaling
              *m Isotropic.q_sqrtm_lower Examples.impl_noise5))^T,
      Examples.first_row
        (diag_mx Examples.unit_scaling
           *m Isotropic.q_sqrtm_lower Examples.impl_noise5) != 0,
      Examples.sqrt01 1%:R ^+ 2 = 1%:R
    & exists diffusion_sqrtm error_estimate,
        [/\ Isotropic.estimate_error Examples.qr345 Examples.sqrt01
              Examples.impl_noise5 Examples.first_row (25%:M : 'rV[rat]_1)
              Examples.unit_scaling
            = Some (diffusion_sqrtm, error_estimate),
            error_estimate ^+ 2 * 1%:R
            = ((25%:M : 'rV[rat]_1) *m (25%:M : 'rV[rat]_1)^T) 0 0
          & diffusion_sqrtm ^+ 2
              * (Examples.first_row
                   (diag_mx Examples.unit_scaling
                      *m Isotropic.q_sqrtm_lower Examples.impl_noise5)
                 *m (Examples.first_row
                       (diag_mx Examples.unit_scaling
                          *m Isotropic.q_sqrtm_lower Examples.impl_noise5))^T)
                  0 0
              * 1%:R
            = ((25%:M : 'rV[rat]_1) *m (25%:M : 'rV[rat]_1)^T) 0 0]].
Proof.
have rawE : Examples.first_row
    (diag_mx Examples.unit_scaling
       *m Isotropic.q_sqrtm_lower Examples.impl_noise5) = 5%:M.
  rewrite /Examples.first_row /Examples.unit_scaling; scalar1; by rewrite mul1r.
have g5 : Sqrtm.gram (5%:M : 'M[rat]_1) = 25%:M.
  by rewrite gram_scalar1; congr (_%:M); apply/eqP.
have okl : Sqrtm.qr_ok Examples.qr345
    (Examples.first_row
       (diag_mx Examples.unit_scaling
          *m Isotropic.q_sqrtm_lower Examples.impl_noise5))^T.
  by rewrite rawE tr_scalar_mx; exact: qr345_ok_col.
have raw0 : Examples.first_row
    (diag_mx Examples.unit_scaling
       *m Isotropic.q_sqrtm_lower Examples.impl_noise5) != 0.
  by rewrite rawE scalar_mx1_neq0.
have sqd : Examples.sqrt01 1%:R ^+ 2 = 1%:R by rewrite /Examples.sqrt01 expr1n.
have okw : Sqrtm.qr_ok Examples.qr345
    ((Examples.sqrt01 1%:R)^-1
       *: ((Sqrtm.sqrtm_to_cholesky Examples.qr345
              (Examples.first_row
                 (diag_mx Examples.unit_scaling
                    *m Isotropic.q_sqrtm_lower Examples.impl_noise5))^T 0 0)^-1
           *: (25%:M : 'rV[rat]_1)))^T.
  rewrite rawE /Sqrtm.sqrtm_to_cholesky tr_scalar_mx (qr345_col g5).
  rewrite tr_scalar_mx mxE /Examples.sqrt01 !scale_scalar_mx tr_scalar_mx.
  apply: qr345_ok_col; rewrite gram_scalar1; congr (_%:M); exact/eqP.
split; [exact: okl | exact: raw0 | exact: sqd |].
exact: (@estimate_error_rms _ Examples.qr345 Examples.sqrt01 1 1
          Examples.impl_noise5 Examples.first_row 25%:M Examples.unit_scaling
          okl okw raw0 (ltn0Sn 0) sqd).
Defined.

Lemma extract_sol_factor_witness :
  Sqrtm.qr_ok Examples.qr345
    (row 0 (Isotropic.cov_sqrtm_lower MoreExamples.rv5))
  /\ IsotropicSolution.cov_sqrtm_lower
       (IsotropicSolution.extract_sol Examples.qr345 MoreExamples.rv5) ^+ 2
     = (Isotropic.cov_sqrtm_lower MoreExamples.rv5) 0 0 ^+ 2.
Proof.
have ok : Sqrtm.qr_ok Examples.qr345
    (row 0 (Isotropic.cov_sqrtm_lower MoreExamples.rv5)).
  rewrite /= row_scalar1; apply: qr345_ok_col.
  by rewrite gram_scalar1; congr (_%:M); apply/eqP.
split; first exact: ok.
have [sqE _] := @extract_sol_factor _ Examples.qr345 0 1 MoreExamples.rv5 ok.
exact: sqE.
Defined.
